(** * Markdown link analyser: a shallow embedding of [script.py]

    The script lists the [.md] files of a directory, extracts tags, keeps the
    notes that pass the tag filters, builds the [[...]] link graph over the
    notes that remain, ranks the notes by total degree and selects a subset
    under count, percentage and size constraints; the subset is reported,
    copied and combined.

    Python values are modelled as follows.
    - [str]: a list of Unicode code points ([N]).
    - [dict]: an association list in insertion order with [dict_set]
      overwriting in place, as Python dictionaries keep insertion order.
    - [set]: stdpp's [gset].
    - [int]: [Z] (lengths as [nat]).
    - [float]: IEEE 754 binary64, through the Standard Library's [SpecFloat]
      operations at precision 53 and [emax] 1024.
    - the operating system: a record of oracles ([world]) that answer the
      calls the script makes, and a trace of [event]s for what it prints and
      for the calls that change the file system. *)

From Stdlib Require Import ZArith NArith Lia Ascii String.
From Stdlib Require Import Floats.SpecFloat.
From stdpp Require Import base decidable option list sets gmap sorting.

Local Open Scope Z_scope.

(** ** Python strings *)

Module Py.

(** A Python [str] is a sequence of Unicode code points. *)
Abbreviation str := (list N).

(** [lit] turns an ASCII literal into a [str]. *)
Definition lit (s : string) : str :=
List.map N_of_ascii (list_ascii_of_string s).

(** [str.isspace] on one character: the code points CPython's
  [_PyUnicode_IsWhitespace] accepts. *)
Definition isspace (c : N) : bool :=
((9 <=? c) && (c <=? 13) || (28 <=? c) && (c <=? 32)
 || (c =? 133) || (c =? 160) || (c =? 5760)
 || (8192 <=? c) && (c <=? 8202)
 || (c =? 8232) || (c =? 8233) || (c =? 8239) || (c =? 8287)
 || (c =? 12288))%N.

Fixpoint lstrip (s : str) : str :=
match s with
| [] => []
| c :: s' => if isspace c then lstrip s' else s
end.

Definition rstrip (s : str) : str := rev (lstrip (rev s)).

(** [s.strip()] *)
Definition strip (s : str) : str := rstrip (lstrip s).

(** [s.replace(a, b)] for one-character [a] and [b]. *)
Definition replace_char (a b : N) (s : str) : str :=
List.map (fun c => if (c =? a)%N then b else c) s.

Fixpoint startswith (s p : str) : bool :=
match p, s with
| [], _ => true
| _ :: _, [] => false
| a :: p', c :: s' => (a =? c)%N && startswith s' p'
end.

(** [s.endswith(p)] *)
Definition endswith (s p : str) : bool := startswith (rev s) (rev p).

(** [os.path.splitext(f)[0]] for a file name [f] without directory
  separator: the extension starts at the last dot, unless only dots
  precede that dot, in which case there is no extension. *)
Fixpoint rindex_dot (s : str) (i : nat) (last : option nat) : option nat :=
match s with
| [] => last
| c :: s' => rindex_dot s' (S i) (if (c =? 46)%N then Some i else last)
end.

Definition splitext_root (f : str) : str :=
match rindex_dot f 0 None with
| None => f
| Some d =>
    if forallb (fun c => (c =? 46)%N) (take d f) then f else take d f
end.

(** [os.path.join(a, b)] (POSIX). *)
Definition path_join (a b : str) : str :=
if startswith b [47%N] then b
else if (match a with [] => true | _ => endswith a [47%N] end)
     then a ++ b
     else a ++ 47%N :: b.

End Py.

Import Py.

(** ** Regular expressions of the script

    [re.findall] and [re.sub] scan from left to right; after a match at one
    position the scan resumes at the end of the match, otherwise at the next
    character.  The scanners below recurse on the text and carry the number
    of characters still covered by the last match ([skip]). *)

(** Maximal run of characters satisfying [p] at the head of [s]. *)
Fixpoint span_run (p : N -> bool) (s : str) : str :=
  match s with
  | [] => []
  | c :: s' => if p c then c :: span_run p s' else []
  end.

(** *** [link_pattern = \[\[([^\]]+)\]\]] *)

Definition not_rbracket (c : N) : bool := negb (c =? 93)%N.

(** A match of [link_pattern] at the head of [s]: the captured group.  The
    group is greedy and a character of the group is never a closing bracket,
    so only the maximal run can be followed by the two closing brackets. *)
Definition match_link (s : str) : option str :=
  if startswith s [91%N; 91%N] then
    let s' := drop 2 s in
    let g := span_run not_rbracket s' in
    match g with
    | [] => None
    | _ :: _ => if startswith (drop (length g) s') [93%N; 93%N]
                then Some g else None
    end
  else None.

Fixpoint findall_links_from (skip : nat) (s : str) : list str :=
  match s with
  | [] => []
  | _ :: s' =>
      match skip with
      | S k => findall_links_from k s'
      | O =>
          match match_link s with
          | Some g => g :: findall_links_from (length g + 3) s'
          | None => findall_links_from 0 s'
          end
      end
  end.

(** [link_pattern.findall(content)] *)
Definition findall_links (content : str) : list str :=
  findall_links_from 0 content.

(** *** [code_block_pattern = ```.*?```] with [re.DOTALL] *)

Definition fence : str := [96%N; 96%N; 96%N].

(** Position of the first occurrence of [fence] in [s]. *)
Fixpoint find_fence (s : str) : option nat :=
  match s with
  | [] => None
  | _ :: s' =>
      if startswith s fence then Some O
      else S <$> find_fence s'
  end.

(** Length of the match of [code_block_pattern] at the head of [s]: the
    opening fence, the shortest text up to a closing fence, the closing
    fence. *)
Definition match_code_block (s : str) : option nat :=
  if startswith s fence
  then (fun n => (n + 6)%nat) <$> find_fence (drop 3 s)
  else None.

Fixpoint remove_code_blocks_from (skip : nat) (s : str) : str :=
  match s with
  | [] => []
  | c :: s' =>
      match skip with
      | S k => remove_code_blocks_from k s'
      | O =>
          match match_code_block s with
          | Some n => remove_code_blocks_from (n - 1) s'
          | None => c :: remove_code_blocks_from 0 s'
          end
      end
  end.

(** [re.sub(code_block_pattern, '', content)] *)
Definition remove_code_blocks (content : str) : str :=
  remove_code_blocks_from 0 content.

(** *** [tag_pattern = (?:#)?([A-Za-z0-9_\-]+)] *)

Definition tag_char (c : N) : bool :=
  ((65 <=? c) && (c <=? 90) || (97 <=? c) && (c <=? 122)
   || (48 <=? c) && (c <=? 57) || (c =? 95) || (c =? 45))%N.

(** A match of [tag_pattern] at the head of [s]: the captured group and the
    length of the whole match. *)
Definition match_tag (s : str) : option (str * nat) :=
  match s with
  | [] => None
  | c :: s' =>
      if (c =? 35)%N then
        match span_run tag_char s' with
        | [] => None
        | g => Some (g, S (length g))
        end
      else
        match span_run tag_char s with
        | [] => None
        | g => Some (g, length g)
        end
  end.

Fixpoint findall_tags_from (skip : nat) (s : str) : list str :=
  match s with
  | [] => []
  | _ :: s' =>
      match skip with
      | S k => findall_tags_from k s'
      | O =>
          match match_tag s with
          | Some (g, n) => g :: findall_tags_from (n - 1) s'
          | None => findall_tags_from 0 s'
          end
      end
  end.

(** [extract_tags_from_content(content)] *)
Definition extract_tags_from_content (content : str) : gset str :=
  list_to_set (findall_tags_from 0 content).

(** ** Python dictionaries

    A [dict] keeps its keys in insertion order; assigning to a key that is
    present replaces the value where it stands. *)

Abbreviation dict V := (list (str * V)).

Section Dict.
Context {V : Type}.

Definition dict_keys (d : dict V) : list str := d.*1.

Fixpoint dict_get (k : str) (d : dict V) : option V :=
  match d with
  | [] => None
  | (k', v) :: d' => if decide (k = k') then Some v else dict_get k d'
  end.

(** [k in d] *)
Definition dict_mem (k : str) (d : dict V) : bool :=
  match dict_get k d with Some _ => true | None => false end.

(** [d[k] = v] *)
Fixpoint dict_set (k : str) (v : V) (d : dict V) : dict V :=
  match d with
  | [] => [(k, v)]
  | (k', v') :: d' =>
      if decide (k = k') then (k, v) :: d' else (k', v') :: dict_set k v d'
  end.

(** [d[k] = f(d[k])] for a key that is present, as in [d[k] += 1] and
    [d[k].add(x)]; Python raises [KeyError] when [k] is missing, which
    [keys_link_pass] and [keys_count_incoming] below exclude: there the
    dictionary is returned as it is. *)
Fixpoint dict_alter (f : V -> V) (k : str) (d : dict V) : dict V :=
  match d with
  | [] => []
  | (k', v) :: d' =>
      if decide (k = k') then (k', f v) :: d' else (k', v) :: dict_alter f k d'
  end.

(** [{k: v for (k, v) in l}] *)
Definition dict_of_list (l : list (str * V)) : dict V :=
  foldl (fun d kv => dict_set kv.1 kv.2 d) [] l.

(** [d[k]], with [dflt] standing for the [KeyError] that the callers
    exclude. *)
Definition dict_item (dflt : V) (k : str) (d : dict V) : V :=
  default dflt (dict_get k d).
End Dict.

(** ** Python floats: IEEE 754 binary64 *)

Module Float.
Definition float : Type := spec_float.
Definition prec : Z := 53.
Definition emax : Z := 1024.

(** [float(z)] for an integer [z], rounded to nearest even. *)
Definition of_int (z : Z) : float := binary_normalize prec emax z 0 false.
Definition mul : float -> float -> float := SFmul prec emax.
Definition div : float -> float -> float := SFdiv prec emax.
Definition ltb : float -> float -> bool := SFltb.
Definition leb : float -> float -> bool := SFleb.

Inductive exn := OSError | OverflowError | ValueError.

(** [math.floor(x)]: the largest integer below or equal to [x]; the shift
    by a negative exponent divides rounding down. *)
Definition floor (x : float) : exn + Z :=
  match x with
  | S754_zero _ => inr 0
  | S754_finite s m e => inr (Z.shiftl (cond_Zopp s (Zpos m)) e)
  | S754_infinity _ => inl OverflowError
  | S754_nan => inl ValueError
  end.

(** [int(x)]: truncation towards zero. *)
Definition to_int (x : float) : exn + Z :=
  match x with
  | S754_zero _ => inr 0
  | S754_finite s m e => inr (cond_Zopp s (Z.shiftl (Zpos m) e))
  | S754_infinity _ => inl OverflowError
  | S754_nan => inl ValueError
  end.
End Float.

Import Float.

(** ** Configuration, operating system and trace *)

(** The parsed command line ([args]). *)
Record config := {
  input_dir : str;
  output_csv : str;
  arg_ignore_tags : list str;
  arg_select_tags : list str;
  copy_top : option Z;
  copy_top_percent : option float;
  copy_until_size : option float;
  copy_dest : option str;
  combine_md : option str;
  verbose : bool;
  no_csv : bool;
  dry_run : bool
}.

(** The three places where the script reads a note. *)
Inductive pass := TagPass | LinkPass | CombinePass.

(** The answers of the operating system.  A file can change between two
    passes, so reading depends on the pass; within a pass every path is
    read at most once. *)
Record world := {
  os_listdir : str -> option (list str);
  read_text : pass -> str -> option str;
  os_isfile : str -> bool;
  os_getsize : str -> option Z;
  os_exists : str -> bool;
  makedirs_ok : str -> bool;
  copyfile_ok : str -> str -> bool;
  open_w_ok : str -> bool
}.

(** One record of [data_for_csv]:
    [(filename, out_count, in_count, total_count, file_size)]. *)
Record row := {
  r_filename : str;
  r_out : nat;
  r_in : nat;
  r_total : nat;
  r_size : Z
}.

Inductive level := INFO | DEBUG | ERROR.

(** The messages of the script, with the values they interpolate. *)
Inductive message :=
| MStarting
| MInputDirectory (d : str)
| MOutputCsv (p : str)
| MDryRunMode
| MFound (n : nat)
| MAfterFiltering (n : nat)
| MProcessed (i n : nat) (filename : str) (outgoing : nat)
| MCouldNotRead (filepath : str)
| MNotFound (filepath : str)
| MCouldNotGetSize (filepath : str)
| MWritingCsv
| MCsvWritten
| MCouldNotWriteCsv (p : str)
| MNoCsv
| MDryRunNoCsv
| MSelected (n : nat)
| MNoneSelected
| MDryRunNoCopy
| MWouldHaveBeenCopied
| MWouldCopy (filename : str) (size : Z)
| MCopying (n : nat) (dest : str)
| MCouldNotCreateDir (dest : str)
| MCouldNotCopy (src dst : str)
| MCopied (i n : nat) (filename : str)
| MFailedToCopy (filename : str)
| MCombining (n : nat) (p : str)
| MSkipping (filename : str)
| MCombinationDone
| MCouldNotWriteCombined (p : str)
| MNoNotesToCombine
| MProcessingComplete.

(** What the script does to the outside, in order.  [OpenW] is the call
    that opens a file for writing, whether or not it succeeds; what follows
    it is written only when it does, and a write to an open file is taken
    to succeed. *)
Inductive event :=
| Print (l : level) (m : message)
| OpenW (path : str)
| CsvHeader (path : str) (fields : list str)
| CsvRow (path : str) (r : row)
| Write (path : str) (text : str)
| Makedirs (path : str)
| CopyFile (src dst : str).

(** Computations that print and act: a value and the trace produced. *)
Definition W (A : Type) : Type := A * list event.

Definition wret {A} (a : A) : W A := (a, []).

Definition wbind {A B} (m : W A) (k : A -> W B) : W B :=
  let r := k m.1 in (r.1, m.2 ++ r.2).

Definition emit (t : list event) : W unit := (tt, t).

Notation "x <~ m ;; k" := (wbind m (fun x => k))
  (at level 100, m at next level, right associativity).
Notation "m ;;; k" := (wbind m (fun _ => k))
  (at level 100, right associativity).

(** [for a in l: s = body(a, s)] *)
Fixpoint for_each {A S} (body : A -> S -> W S) (l : list A) (s : S) : W S :=
  match l with
  | [] => wret s
  | a :: l' => s' <~ body a s ;; for_each body l' s'
  end.

(** [enumerate(l, start=i)] *)
Fixpoint enumerate {A} (i : nat) (l : list A) : list (nat * A) :=
  match l with
  | [] => []
  | a :: l' => (i, a) :: enumerate (S i) l'
  end.

(** ** The functions of the script *)

Definition log (l : level) (m : message) (verbose : bool) : W unit :=
  if negb verbose then wret tt else emit [Print l m].

Definition safe_read_file (w : world) (ps : pass) (filepath : str)
    (verbose : bool) : W (option str) :=
  match read_text w ps filepath with
  | Some content =>
      wret (Some (replace_char 8233 10 (replace_char 8232 10 content)))
  | None => log ERROR (MCouldNotRead filepath) verbose ;;; wret None
  end.

Definition safe_copy_file (w : world) (source dest : str) (verbose : bool)
    : W bool :=
  emit [CopyFile source dest] ;;;
  if copyfile_ok w source dest then wret true
  else log ERROR (MCouldNotCopy source dest) verbose ;;; wret false.

Definition dot_md : str := lit ".md".

(** [notes = {os.path.splitext(f)[0]: f for f in md_files}] *)
Definition notes_of (md_files : list str) : dict str :=
  dict_of_list (List.map (fun f => (splitext_root f, f)) md_files).

Section Passes.
Variable cfg : config.
Variable w : world.

Definition ignore_tags : gset str := list_to_set (arg_ignore_tags cfg).
Definition select_tags : gset str := list_to_set (arg_select_tags cfg).

(** Body of the tag extraction loop (lines 109-118). *)
Definition tag_step (item : str * str) (note_tags : dict (gset str))
    : W (dict (gset str)) :=
  let filepath := path_join (input_dir cfg) item.2 in
  content <~ safe_read_file w TagPass filepath (verbose cfg) ;;
  match content with
  | None => wret note_tags
  | Some content =>
      let clean_content := remove_code_blocks content in
      let tags_in_note := extract_tags_from_content clean_content in
      wret (dict_set item.1 tags_in_note note_tags)
  end.

Definition tag_pass (notes : dict str) : W (dict (gset str)) :=
  for_each tag_step notes [].

Definition note_passes_filter (note_tags : dict (gset str))
    (note_name : str) : bool :=
  let tags_in_note := default ∅ (dict_get note_name note_tags) in
  if bool_decide (select_tags ≠ ∅)
     && negb (bool_decide (select_tags ⊆ tags_in_note))
  then false
  else if bool_decide (ignore_tags ≠ ∅)
          && negb (bool_decide (tags_in_note ## ignore_tags))
  then false
  else true.

(** [filtered_notes] (line 129) *)
Definition filtered_notes_of (notes : dict str)
    (note_tags : dict (gset str)) : dict str :=
  dict_of_list
    (omap (fun n =>
             if dict_mem n note_tags && note_passes_filter note_tags n
             then (fun f => (n, f)) <$> dict_get n notes
             else None)
          (dict_keys notes)).

(** The loop over [found_links] (lines 145-148). *)
Definition add_links (filtered : dict str) (note_name : str)
    (found_links : list str) (outgoing : dict (gset str))
    : dict (gset str) :=
  foldl (fun out link =>
           let target := strip link in
           if dict_mem target filtered
              && negb (bool_decide (target = note_name))
           then dict_alter (fun s => {[target]} ∪ s) note_name out
           else out)
        outgoing found_links.

(** Body of the link extraction loop (lines 137-150). *)
Definition link_step (filtered : dict str) (item : nat * (str * str))
    (outgoing : dict (gset str)) : W (dict (gset str)) :=
  let note_name := item.2.1 in
  let filename := item.2.2 in
  let filepath := path_join (input_dir cfg) filename in
  content <~ safe_read_file w LinkPass filepath (verbose cfg) ;;
  match content with
  | None => wret outgoing
  | Some content =>
      let found_links := findall_links content in
      let outgoing' := add_links filtered note_name found_links outgoing in
      log DEBUG
          (MProcessed item.1 (length filtered) filename
             (size (dict_item ∅ note_name outgoing')))
          (verbose cfg) ;;;
      wret outgoing'
  end.

Definition link_pass (filtered : dict str) : W (dict (gset str)) :=
  for_each (link_step filtered) (enumerate 1 filtered)
    (List.map (fun n => (n, ∅)) (dict_keys filtered)).

(** [incoming_links_count] (lines 152-156) *)
Definition count_incoming (filtered : dict str)
    (outgoing : dict (gset str)) : dict nat :=
  foldl (fun inc note =>
           foldl (fun inc (item : str * gset str) =>
                    if bool_decide (note ∈ item.2)
                    then dict_alter S note inc else inc)
                 inc outgoing)
        (List.map (fun n => (n, O)) (dict_keys filtered))
        (dict_keys filtered).

(** Body of the sizing loop (lines 159-174). *)
Definition size_step (filtered : dict str) (outgoing : dict (gset str))
    (incoming : dict nat) (note : str) (data : list row) : W (list row) :=
  let filename := dict_item [] note filtered in
  let filepath := path_join (input_dir cfg) filename in
  if negb (os_isfile w filepath) then
    log ERROR (MNotFound filepath) (verbose cfg) ;;; wret data
  else
    file_size <~ match os_getsize w filepath with
                 | Some n => wret n
                 | None =>
                     log ERROR (MCouldNotGetSize filepath) (verbose cfg) ;;;
                     wret 0
                 end ;;
    let out_count := size (dict_item ∅ note outgoing) in
    let in_count := dict_item O note incoming in
    let total_count := (out_count + in_count)%nat in
    wret (data ++ [{| r_filename := filename; r_out := out_count;
                      r_in := in_count; r_total := total_count;
                      r_size := file_size |}]).

Definition size_pass (filtered : dict str) (outgoing : dict (gset str))
    (incoming : dict nat) : W (list row) :=
  for_each (size_step filtered outgoing incoming) (dict_keys filtered) [].
End Passes.

(** [data_for_csv.sort(key=lambda x: x[3], reverse=True)]: the sort is
    stable, so the result is the one descending arrangement in which records
    of equal total keep their order; it is computed here by insertion. *)
Fixpoint insert_desc (x : row) (l : list row) : list row :=
  match l with
  | [] => [x]
  | y :: l' =>
      if (r_total x <? r_total y)%nat then y :: insert_desc x l'
      else x :: y :: l'
  end.

Definition sort_desc (l : list row) : list row := foldr insert_desc [] l.

(** [max_notes_limit] (lines 196-206) *)
Definition max_notes_limit_of (copy_top : option Z)
    (copy_top_percent : option float) (num_notes : nat) : exn + option Z :=
  let max_notes_limit :=
    match copy_top with
    | Some n => if 0 <? n then Some n else None
    | None => None
    end in
  match copy_top_percent with
  | Some p =>
      if ltb (of_int 0) p && leb p (of_int 100) then
        match floor (mul (div p (of_int 100)) (of_int (Z.of_nat num_notes))) with
        | inl e => inl e
        | inr count =>
            inr (if 0 <? count then
                   match max_notes_limit with
                   | Some l => Some (Z.min l count)
                   | None => Some count
                   end
                 else max_notes_limit)
        end
      else inr max_notes_limit
  | None => inr max_notes_limit
  end.

(** [max_size_bytes] (lines 208-210) *)
Definition max_size_bytes_of (copy_until_size : option float)
    : exn + option Z :=
  match copy_until_size with
  | Some x =>
      if ltb (of_int 0) x then
        match to_int (mul (mul x (of_int 1024)) (of_int 1024)) with
        | inl e => inl e
        | inr n => inr (Some n)
        end
      else inr None
  | None => inr None
  end.

(** The selection loop (lines 215-225), with [notes_to_copy] and
    [total_size] as accumulators; each [break] returns the accumulator. *)
Fixpoint select_loop (max_notes_limit max_size_bytes : option Z)
    (rows notes_to_copy : list row) (total_size : Z) : list row :=
  match rows with
  | [] => notes_to_copy
  | r :: rest =>
      if match max_notes_limit with
         | Some l => l <=? Z.of_nat (length notes_to_copy)
         | None => false
         end
      then notes_to_copy
      else if match max_size_bytes with
              | Some m => m <? total_size + r_size r
              | None => false
              end
      then notes_to_copy
      else select_loop max_notes_limit max_size_bytes rest
             (notes_to_copy ++ [r]) (total_size + r_size r)
  end.

Definition select (max_notes_limit max_size_bytes : option Z)
    (data_for_csv : list row) : list row :=
  select_loop max_notes_limit max_size_bytes data_for_csv [] 0.

(** Python's truth value of a list. *)
Definition nonempty {A} (l : list A) : bool :=
  match l with [] => false | _ => true end.

Definition csv_header : list str :=
  [lit "nom_du_fichier"; lit "nombre_liens_sortants";
   lit "nombre_liens_entrants"; lit "total_liens"; lit "file_size"].

Definition blank_line : str := [10%N; 10%N].

(** What the analysis keeps in memory once ranking is done. *)
Record analysis := {
  a_notes : dict str;
  a_note_tags : dict (gset str);
  a_filtered : dict str;
  a_outgoing : dict (gset str);
  a_incoming : dict nat;
  a_data : list row
}.

Section Main.
Variable cfg : config.
Variable w : world.

Local Abbreviation v := (verbose cfg).

(** Lines 98-176, from the directory listing to the sorted records. *)
Definition analyse (entries : list str) : W analysis :=
  let md_files := List.filter (fun f => endswith f dot_md) entries in
  log INFO (MFound (length md_files)) v ;;;
  let notes := notes_of md_files in
  note_tags <~ tag_pass cfg w notes ;;
  let filtered_notes := filtered_notes_of cfg notes note_tags in
  log INFO (MAfterFiltering (length filtered_notes)) v ;;;
  outgoing_links <~ link_pass cfg w filtered_notes ;;
  let incoming_links_count := count_incoming filtered_notes outgoing_links in
  data_for_csv <~ size_pass cfg w filtered_notes outgoing_links
                    incoming_links_count ;;
  wret {| a_notes := notes; a_note_tags := note_tags;
          a_filtered := filtered_notes; a_outgoing := outgoing_links;
          a_incoming := incoming_links_count;
          a_data := sort_desc data_for_csv |}.

(** Lines 178-192. *)
Definition write_csv (data_for_csv : list row) : W unit :=
  if negb (no_csv cfg) && negb (dry_run cfg) then
    log INFO MWritingCsv v ;;;
    emit [OpenW (output_csv cfg)] ;;;
    if open_w_ok w (output_csv cfg) then
      emit (CsvHeader (output_csv cfg) csv_header
            :: List.map (CsvRow (output_csv cfg)) data_for_csv) ;;;
      log INFO MCsvWritten v
    else log ERROR (MCouldNotWriteCsv (output_csv cfg)) v
  else if no_csv cfg then log INFO MNoCsv v
  else if dry_run cfg then log INFO MDryRunNoCsv v
  else wret tt.

(** Lines 232-238. *)
Definition report_dry_run (notes_to_copy : list row) : W unit :=
  log INFO MDryRunNoCopy v ;;;
  if nonempty notes_to_copy then
    log INFO MWouldHaveBeenCopied v ;;;
    for_each (fun r _ => log INFO (MWouldCopy (r_filename r) (r_size r)) v)
      notes_to_copy tt
  else wret tt.

Definition copy_step (dest : str) (n : nat) (item : nat * row) (_ : unit)
    : W unit :=
  let filename := r_filename item.2 in
  let source_path := path_join (input_dir cfg) filename in
  let dest_path := path_join dest filename in
  ok <~ safe_copy_file w source_path dest_path v ;;
  if ok then log DEBUG (MCopied item.1 n filename) v
  else log ERROR (MFailedToCopy filename) v.

(** Lines 240-254. *)
Definition copy_phase (notes_to_copy : list row) : W unit :=
  match copy_dest cfg with
  | Some dest =>
      if nonempty notes_to_copy then
        log INFO (MCopying (length notes_to_copy) dest) v ;;;
        (if negb (os_exists w dest) then
           emit [Makedirs dest] ;;;
           if makedirs_ok w dest then wret tt
           else log ERROR (MCouldNotCreateDir dest) v
         else wret tt) ;;;
        for_each (copy_step dest (length notes_to_copy))
          (enumerate 1 notes_to_copy) tt
      else wret tt
  | None => wret tt
  end.

Definition combine_step (out_md : str) (n : nat) (item : nat * row)
    (_ : unit) : W unit :=
  let filename := r_filename item.2 in
  let source_path := path_join (input_dir cfg) filename in
  content <~ safe_read_file w CombinePass source_path v ;;
  match content with
  | None => log ERROR (MSkipping filename) v
  | Some content =>
      emit [Write out_md content] ;;;
      if Z.of_nat item.1 <? Z.of_nat n - 1
      then emit [Write out_md blank_line] else wret tt
  end.

(** Lines 257-275. *)
Definition combine_phase (notes_to_copy : list row) : W unit :=
  match combine_md cfg with
  | Some out_md =>
      if nonempty notes_to_copy then
        log INFO (MCombining (length notes_to_copy) out_md) v ;;;
        emit [OpenW out_md] ;;;
        if open_w_ok w out_md then
          for_each (combine_step out_md (length notes_to_copy))
            (enumerate 0 notes_to_copy) tt ;;;
          log INFO MCombinationDone v
        else log ERROR (MCouldNotWriteCombined out_md) v
      else log INFO MNoNotesToCombine v
  | None => wret tt
  end.

(** Lines 194-277, from the sorted records to the end. *)
Definition export (data_for_csv : list row) : W (exn + list row) :=
  write_csv data_for_csv ;;;
  let num_notes := length data_for_csv in
  match max_notes_limit_of (copy_top cfg) (copy_top_percent cfg) num_notes with
  | inl e => wret (inl e)
  | inr max_notes_limit =>
      match max_size_bytes_of (copy_until_size cfg) with
      | inl e => wret (inl e)
      | inr max_size_bytes =>
          let notes_to_copy :=
            select max_notes_limit max_size_bytes data_for_csv in
          (if nonempty notes_to_copy
           then log INFO (MSelected (length notes_to_copy)) v
           else log INFO MNoneSelected v) ;;;
          if dry_run cfg then
            report_dry_run notes_to_copy ;;; wret (inr notes_to_copy)
          else
            copy_phase notes_to_copy ;;;
            combine_phase notes_to_copy ;;;
            log INFO MProcessingComplete v ;;;
            wret (inr notes_to_copy)
      end
  end.

(** [main()]: the value is the exception that ends the run, or the
    selection [notes_to_copy] when the run completes. *)
Definition main : W (exn + list row) :=
  log INFO MStarting v ;;;
  log INFO (MInputDirectory (input_dir cfg)) v ;;;
  log INFO (MOutputCsv (output_csv cfg)) v ;;;
  (if dry_run cfg then log INFO MDryRunMode v else wret tt) ;;;
  match os_listdir w (input_dir cfg) with
  | None => wret (inl OSError)
  | Some entries =>
      a <~ analyse entries ;;
      export (a_data a)
  end.
End Main.

(** ** Observations on a run

    The definitions below are not in the script: they name what the
    statements of the next part talk about. *)

(** The cumulative size of a list of records. *)
Definition total_size (l : list row) : Z := foldr (fun r z => r_size r + z) 0 l.

(** The first [break] of the selection loop applies once [n] notes are
    selected. *)
Definition count_reached (max_notes_limit : option Z) (n : nat) : Prop :=
  exists l, max_notes_limit = Some l /\ l <= Z.of_nat n.

(** The second [break] of the selection loop applies at cumulative size
    [z]. *)
Definition above_ceiling (max_size_bytes : option Z) (z : Z) : Prop :=
  exists m, max_size_bytes = Some m /\ m < z.

(** Descending order of total degree. *)
Definition ranked_before (r1 r2 : row) : Prop := (r_total r2 <= r_total r1)%nat.

(** The count limit that results from the positive top-N, if any, and a
    percentage-derived count [c]: [c] applies only when positive, and the
    smaller of the two wins. *)
Definition effective_limit (copy_top : option Z) (c : Z) : option Z :=
  let top := match copy_top with
             | Some n => if 0 <? n then Some n else None
             | None => None
             end in
  if 0 <? c then
    Some (match top with Some n => Z.min n c | None => c end)
  else top.

(** The events that change the file system. *)
Definition mutates (e : event) : bool :=
  match e with Print _ _ => false | _ => true end.

Definition not_write (e : event) : Prop :=
  match e with Write _ _ => False | _ => True end.

(** The text written to [path] through [Write] events. *)
Definition written (path : str) (t : list event) : str :=
  concat (omap (fun e => match e with
                         | Write p text =>
                             if decide (p = path) then Some text else None
                         | _ => None
                         end) t).

(** The records written to the CSV file [path]. *)
Definition csv_rows (path : str) (t : list event) : list row :=
  omap (fun e => match e with
                 | CsvRow p r => if decide (p = path) then Some r else None
                 | _ => None
                 end) t.

(** [sep.join(l)] *)
Fixpoint join (sep : str) (l : list str) : str :=
  match l with
  | [] => []
  | [x] => x
  | x :: l' => x ++ sep ++ join sep l'
  end.

(** The targets the loop over [found_links] keeps. *)
Definition valid_targets (filtered : dict str) (note_name : str)
    (found_links : list str) : gset str :=
  list_to_set
    (List.filter (fun t => dict_mem t filtered
                           && negb (bool_decide (t = note_name)))
                 (List.map strip found_links)).

(** The entries of [outgoing_links] whose set holds [note]. *)
Definition sources_of (note : str) (outgoing : dict (gset str))
    : list (str * gset str) :=
  List.filter (fun item => bool_decide (note ∈ item.2)) outgoing.

(** The configuration [cfg] with another dry-run flag. *)
Definition with_dry_run (b : bool) (cfg : config) : config :=
  {| input_dir := input_dir cfg; output_csv := output_csv cfg;
     arg_ignore_tags := arg_ignore_tags cfg;
     arg_select_tags := arg_select_tags cfg;
     copy_top := copy_top cfg; copy_top_percent := copy_top_percent cfg;
     copy_until_size := copy_until_size cfg; copy_dest := copy_dest cfg;
     combine_md := combine_md cfg; verbose := verbose cfg;
     no_csv := no_csv cfg; dry_run := b |}.

Section Observations.
Variable cfg : config.
Variable w : world.

(** The content [safe_read_file] returns for a file of the input
    directory in a given pass: the raw content of the note. *)
Definition content_of (ps : pass) (filename : str) : option str :=
  (safe_read_file w ps (path_join (input_dir cfg) filename) (verbose cfg)).1.

(** The tags the extraction pass finds in a file. *)
Definition tags_of (filename : str) : option (gset str) :=
  (fun c => extract_tags_from_content (remove_code_blocks c))
    <$> content_of TagPass filename.

(** The outbound set the link pass computes for one note. *)
Definition links_of (filtered : dict str) (note_name filename : str)
    : gset str :=
  match content_of LinkPass filename with
  | Some content => valid_targets filtered note_name (findall_links content)
  | None => ∅
  end.

(** The record the sizing loop appends for the note [item.1] stored as
    [item.2]: none when the file is not a regular file then, and size 0
    when the size lookup fails. *)
Definition record_of (outgoing : dict (gset str)) (incoming : dict nat)
    (item : str * str) : option row :=
  let filepath := path_join (input_dir cfg) item.2 in
  if os_isfile w filepath then
    let out_count := size (dict_item ∅ item.1 outgoing) in
    let in_count := dict_item O item.1 incoming in
    Some {| r_filename := item.2; r_out := out_count; r_in := in_count;
            r_total := out_count + in_count;
            r_size := default 0 (os_getsize w filepath) |}
  else None.
End Observations.

(** ** Further observations

    What the statements of the last part of the file talk about. *)

(** The two Unicode line terminators that [safe_read_file] replaces. *)
Definition is_separator (c : N) : bool := (c =? 8232)%N || (c =? 8233)%N.

(** The extension separator of [os.path.splitext]. *)
Definition is_dot (c : N) : bool := (c =? 46)%N.

(** [t] is a maximal run of tag characters of [content]. *)
Definition is_tag_run (content t : str) : Prop :=
  exists pre post,
    content = pre ++ t ++ post
    /\ t <> []
    /\ Forall (fun c => tag_char c = true) t
    /\ (forall c, last pre = Some c -> tag_char c = false)
    /\ (forall c, head post = Some c -> tag_char c = false).

(** The state of the scan for tags: before [s], with [pre] behind and [k]
    characters of the last match ahead. *)
Definition scan_inv (pre : str) (k : nat) (s : str) : Prop :=
  match k with
  | O => forall a b, last pre = Some a -> head s = Some b ->
                     tag_char a = true -> tag_char b = false
  | S _ => (k <= length s)%nat
           /\ Forall (fun c => tag_char c = true) (take k s)
           /\ forall c, head (drop k s) = Some c -> tag_char c = false
  end.

(** A finite result of rounding has the sign given. *)
Definition sign_is (s : bool) (x : float) : Prop :=
  match x with
  | S754_finite s' _ _ => s' = s
  | _ => True
  end.

(** What a run with configuration [cfg] may do: print when verbose, open
    and fill the CSV file, open and fill the combined file, create the
    destination directory when it is missing, and copy a file of the input
    directory to the destination under its own name; none of these but
    printing in a dry run. *)
Definition allowed (cfg : config) (w : world) (e : event) : Prop :=
  match e with
  | Print _ _ => verbose cfg = true
  | OpenW p =>
      dry_run cfg = false
      /\ (no_csv cfg = false /\ p = output_csv cfg \/ combine_md cfg = Some p)
  | CsvHeader p _ | CsvRow p _ =>
      dry_run cfg = false /\ no_csv cfg = false /\ p = output_csv cfg
      /\ open_w_ok w p = true
  | Write p _ =>
      dry_run cfg = false /\ combine_md cfg = Some p /\ open_w_ok w p = true
  | Makedirs p =>
      dry_run cfg = false /\ copy_dest cfg = Some p /\ os_exists w p = false
  | CopyFile src dst =>
      dry_run cfg = false
      /\ exists dest filename,
           copy_dest cfg = Some dest
           /\ src = path_join (input_dir cfg) filename
           /\ dst = path_join dest filename
  end.

(** The copies a trace attempts, in order. *)
Definition copies (t : list event) : list (str * str) :=
  omap (fun e => match e with
                 | CopyFile src dst => Some (src, dst)
                 | _ => None
                 end) t.

(** The events that are no copy. *)
Definition not_copy (e : event) : Prop :=
  match e with CopyFile _ _ => False | _ => True end.

(** The events of a run that ends before the selection: printing and the
    CSV file. *)
Definition csv_or_print (cfg : config) (e : event) : Prop :=
  match e with
  | Print _ _ => True
  | OpenW p | CsvHeader p _ | CsvRow p _ => p = output_csv cfg
  | _ => False
  end.

(** ** A small vault

    Four notes and a file that is not a note.  [vault] serves the same
    text in every pass; [not_regular] names files that [os.path.isfile]
    rejects (a link to a device, say) and [gone] files that can no longer
    be read when the selection is combined. *)

Definition vault_files : list (str * str) :=
  [(lit "in/A.md", lit "#x [[B]] and [[ C ]], again [[B]], [[A]], [[Z]]");
   (lit "in/B.md", lit "#x back to [[A]]");
   (lit "in/C.md", lit "#y");
   (lit "in/D.md", lit "#x #draft [[A]]")].

Definition vault_entries : list str :=
  [lit "A.md"; lit "B.md"; lit "C.md"; lit "D.md"; lit "todo.txt"].

Definition vault (not_regular gone : list str) : world :=
  {| os_listdir := fun d => if decide (d = lit "in") then Some vault_entries
                            else None;
     read_text := fun ps p =>
       match ps with
       | CombinePass => if bool_decide (p ∈ gone) then None
                        else dict_get p vault_files
       | _ => dict_get p vault_files
       end;
     os_isfile := fun p => dict_mem p vault_files
                           && negb (bool_decide (p ∈ not_regular));
     os_getsize := fun p => (fun c => Z.of_nat (length c))
                              <$> dict_get p vault_files;
     os_exists := fun _ => false;
     makedirs_ok := fun _ => true;
     copyfile_ok := fun _ _ => true;
     open_w_ok := fun _ => true |}.

(** [--input_dir in --output_csv out.csv --ignore-tags draft
     --combine-md all.md -v] *)
Definition vault_cfg : config :=
  {| input_dir := lit "in"; output_csv := lit "out.csv";
     arg_ignore_tags := [lit "draft"]; arg_select_tags := [];
     copy_top := None; copy_top_percent := None; copy_until_size := None;
     copy_dest := None; combine_md := Some (lit "all.md");
     verbose := true; no_csv := false; dry_run := false |}.

(** [--input_dir in --output_csv out.csv --copy-top 2 --copy-dest out] *)
Definition copy_cfg : config :=
  {| input_dir := lit "in"; output_csv := lit "out.csv";
     arg_ignore_tags := []; arg_select_tags := [];
     copy_top := Some 2; copy_top_percent := None; copy_until_size := None;
     copy_dest := Some (lit "out"); combine_md := None;
     verbose := false; no_csv := false; dry_run := false |}.

(** [--input_dir in --output_csv out.csv --copy-until-size inf
     --copy-dest out] *)
Definition endless_cfg : config :=
  {| input_dir := lit "in"; output_csv := lit "out.csv";
     arg_ignore_tags := []; arg_select_tags := [];
     copy_top := None; copy_top_percent := None;
     copy_until_size := Some (S754_infinity false);
     copy_dest := Some (lit "out"); combine_md := None;
     verbose := false; no_csv := false; dry_run := false |}.

(** ** Five claims as the specification states them

    Each definition below follows the words of the specification.  The last
    part of the file refutes it on the vault and proves the statement that
    holds of the script. *)

(** C4 as stated: the count derived from the percentage is
    floor(percent / 100 x total filtered note count), applied when positive,
    and the minimum with a top-N. *)
Definition C4_as_stated (cfg : config) (w : world) (entries : list str)
    : Prop :=
  let a := (analyse cfg w entries).1 in
  forall p c,
    copy_top_percent cfg = Some p ->
    ltb (of_int 0) p = true -> leb p (of_int 100) = true ->
    floor (mul (div p (of_int 100))
             (of_int (Z.of_nat (length (a_filtered a))))) = inr c ->
    max_notes_limit_of (copy_top cfg) (copy_top_percent cfg)
      (length (a_data a))
    = inr (effective_limit (copy_top cfg) c).

(** [--input_dir in --output_csv out.csv --copy-top-percent 50] *)
Definition half_cfg : config :=
  {| input_dir := lit "in"; output_csv := lit "out.csv";
     arg_ignore_tags := []; arg_select_tags := [];
     copy_top := None; copy_top_percent := Some (of_int 50);
     copy_until_size := None; copy_dest := None; combine_md := None;
     verbose := false; no_csv := false; dry_run := false |}.

(** C5 as stated: every filtered note has a record. *)
Definition C5_as_stated (cfg : config) (w : world) (entries : list str)
    : Prop :=
  let a := (analyse cfg w entries).1 in
  forall n f, (n, f) ∈ a_filtered a ->
    exists r, r ∈ a_data a /\ r_filename r = f.

(** C7 as stated: for every ranked list and top-N values [n1 <= n2], with
    no other constraint, every note selected under [n1] is selected under
    [n2]. *)
Definition C7_as_stated (data : list row) (n1 n2 : Z) : Prop :=
  forall lim1 lim2,
    max_notes_limit_of (Some n1) None (length data) = inr lim1 ->
    max_notes_limit_of (Some n2) None (length data) = inr lim2 ->
    n1 <= n2 ->
    forall r, r ∈ select lim1 None data -> r ∈ select lim2 None data.

Definition two_rows : list row :=
  [{| r_filename := lit "A.md"; r_out := 1; r_in := 1; r_total := 2;
      r_size := 10 |};
   {| r_filename := lit "B.md"; r_out := 1; r_in := 0; r_total := 1;
      r_size := 10 |}].

(** C8 as stated: with the dry-run flag nothing is written, copied or
    combined, and the selection is computed and reported. *)
Definition C8_as_stated (cfg : config) (w : world) : Prop :=
  dry_run cfg = true ->
  Forall (fun e => mutates e = false) (main cfg w).2
  /\ (main cfg w).1 = (main (with_dry_run false cfg) w).1
  /\ (forall sel r,
        (main cfg w).1 = inr sel -> r ∈ sel ->
        Print INFO (MWouldCopy (r_filename r) (r_size r)) ∈ (main cfg w).2).

(** [--input_dir in --output_csv out.csv --ignore-tags draft
     --combine-md all.md --dry-run], without [-v]. *)
Definition quiet_dry_cfg : config :=
  {| input_dir := lit "in"; output_csv := lit "out.csv";
     arg_ignore_tags := [lit "draft"]; arg_select_tags := [];
     copy_top := None; copy_top_percent := None; copy_until_size := None;
     copy_dest := None; combine_md := Some (lit "all.md");
     verbose := false; no_csv := false; dry_run := true |}.

(** C9 as stated: the combined file is the contents of the selected notes,
    in order, joined by a blank line; the content of a note is what some
    pass read for it. *)
Definition C9_as_stated (cfg : config) (w : world) : Prop :=
  forall out_md sel,
    dry_run cfg = false -> combine_md cfg = Some out_md ->
    open_w_ok w out_md = true -> (main cfg w).1 = inr sel ->
    exists contents,
      Forall2 (fun r c => exists ps,
                 content_of cfg w ps (r_filename r) = Some c)
              sel contents
      /\ written out_md (main cfg w).2 = join blank_line contents.

(** * Facts *)

(** ** Facts on floats *)

Lemma SFcompare_antisym (x y : float) (c : comparison) :
  SFcompare x y = Some c -> SFcompare y x = Some (CompOpp c).
Proof.
  destruct x as [sx|sx| |sx mx ex], y as [sy|sy| |sy my ey]; simpl;
    try discriminate;
    try (destruct sx; intros [= <-]; reflexivity);
    try (destruct sy; intros [= <-]; reflexivity);
    try (destruct sx, sy; intros [= <-]; reflexivity).
  assert (Hz : (ey ?= ex) = CompOpp (ex ?= ey)) by apply Z.compare_antisym.
  assert (Hp : Pos.compare_cont Eq my mx = CompOpp (Pos.compare_cont Eq mx my))
    by (rewrite (Pos.compare_cont_antisym mx my Eq); reflexivity).
  destruct sx, sy; intros [= <-]; try reflexivity;
    rewrite Hz, Hp; destruct (ex ?= ey); simpl; try reflexivity;
    rewrite ?CompOpp_involutive; reflexivity.
Qed.

Lemma ltb_leb_false (x y : float) : ltb x y = true -> leb y x = false.
Proof.
  unfold ltb, leb, SFltb, SFleb.
  destruct (SFcompare x y) as [[]|] eqn:E; try discriminate.
  intros _. apply SFcompare_antisym in E. rewrite E. reflexivity.
Qed.

Lemma leb_ltb_false (x y : float) : leb x y = true -> ltb y x = false.
Proof.
  unfold ltb, leb, SFltb, SFleb.
  destruct (SFcompare x y) as [[]|] eqn:E; try discriminate;
    intros _; apply SFcompare_antisym in E; rewrite E; reflexivity.
Qed.

(** [math.floor]: the result is the integer [c] with [c <= x < c + 1],
    stated on the mantissa scaled by the exponent. *)
Lemma floor_spec (s : bool) (m : positive) (e : Z) (c : Z) :
  floor (S754_finite s m e) = inr c ->
  if 0 <=? e then c = cond_Zopp s (Zpos m) * 2 ^ e
  else c * 2 ^ (- e) <= cond_Zopp s (Zpos m) < (c + 1) * 2 ^ (- e).
Proof.
  simpl. intros [= <-].
  destruct (Z.leb_spec 0 e) as [He|He].
  - apply Z.shiftl_mul_pow2; assumption.
  - rewrite Z.shiftl_div_pow2 by lia.
    assert (Hp : 0 < 2 ^ (- e)) by (apply Z.pow_pos_nonneg; lia).
    pose proof (Z.mul_div_le (cond_Zopp s (Z.pos m)) _ Hp).
    pose proof (Z.mul_succ_div_gt (cond_Zopp s (Z.pos m)) _ Hp).
    lia.
Qed.

(** ** The selection loop *)

Lemma total_size_app (l1 l2 : list row) :
  total_size (l1 ++ l2) = total_size l1 + total_size l2.
Proof. induction l1 as [|r l1 IH]; simpl; lia. Qed.

(** The loop returns the accumulator followed by a prefix [taken] of the
    rows; no row of [taken] met a [break], and the row after [taken], when
    there is one, met one of the two. *)
Lemma select_loop_spec (lim cap : option Z) (rows acc : list row) (total : Z) :
  exists taken rest,
    rows = taken ++ rest
    /\ select_loop lim cap rows acc total = acc ++ taken
    /\ (forall k, (k < length taken)%nat ->
          ~ count_reached lim (length acc + k)
          /\ ~ above_ceiling cap (total + total_size (take (S k) taken)))
    /\ (forall r rest', rest = r :: rest' ->
          count_reached lim (length acc + length taken)
          \/ above_ceiling cap (total + total_size taken + r_size r)).
Proof.
  revert acc total.
  induction rows as [|r rows IH]; intros acc total.
  - exists [], []. simpl. rewrite app_nil_r.
    split_and!; [reflexivity..| |]; [intros; lia|intros; discriminate].
  - simpl.
    destruct (match lim with Some l => l <=? Z.of_nat (length acc) | None => false end)
      eqn:Hlim.
    { exists [], (r :: rows). simpl. rewrite app_nil_r.
      split_and!; [reflexivity..| |]; [intros; lia|].
      intros r0 rest' _. left.
      destruct lim as [l|]; [|discriminate].
      exists l. split; [reflexivity|]. apply Z.leb_le in Hlim. lia. }
    destruct (match cap with Some m => m <? total + r_size r | None => false end)
      eqn:Hcap.
    { exists [], (r :: rows). simpl. rewrite app_nil_r.
      split_and!; [reflexivity..| |]; [intros; lia|].
      intros r0 rest' [= <- <-]. right.
      destruct cap as [m|]; [|discriminate].
      exists m. split; [reflexivity|]. apply Z.ltb_lt in Hcap. lia. }
    destruct (IH (acc ++ [r]) (total + r_size r)) as (taken & rest & -> & Hsel & Hin & Hout).
    exists (r :: taken), rest.
    split; [reflexivity|]. split; [rewrite Hsel, <- app_assoc; reflexivity|].
    rewrite length_app in Hin, Hout. simpl in Hin, Hout.
    split.
    + intros [|k] Hk.
      * split.
        -- intros (l & -> & Hl). apply Z.leb_gt in Hlim. lia.
        -- intros (m & -> & Hm). apply Z.ltb_ge in Hcap. simpl in Hm. lia.
      * simpl in Hk. destruct (Hin k ltac:(lia)) as [H1 H2]. split.
        -- intros (l & -> & Hl). apply H1. exists l. split; [reflexivity|lia].
        -- intros (m & -> & Hm). apply H2. exists m. split; [reflexivity|].
           simpl in Hm. simpl. lia.
    + intros r0 rest' ->. destruct (Hout r0 rest' eq_refl) as [(l & -> & Hl)|(m & -> & Hm)].
      * left. exists l. split; [reflexivity|]. simpl. lia.
      * right. exists m. split; [reflexivity|]. simpl. lia.
Qed.

Lemma select_loop_count (l : Z) (rows acc : list row) (total : Z) :
  select_loop (Some l) None rows acc total
  = acc ++ take (Z.to_nat l - length acc) rows.
Proof.
  revert acc total. induction rows as [|r rows IH]; intros acc total; simpl.
  - rewrite take_nil, app_nil_r. reflexivity.
  - destruct (Z.leb_spec l (Z.of_nat (length acc))) as [H|H].
    + replace (Z.to_nat l - length acc)%nat with O by lia.
      rewrite app_nil_r. reflexivity.
    + rewrite IH, length_app. simpl.
      replace (Z.to_nat l - length acc)%nat
        with (S (Z.to_nat l - (length acc + 1)))%nat by lia.
      simpl. rewrite <- app_assoc. reflexivity.
Qed.

Lemma select_loop_unconstrained (rows acc : list row) (total : Z) :
  select_loop None None rows acc total = acc ++ rows.
Proof.
  revert acc total. induction rows as [|r rows IH]; intros acc total; simpl.
  - rewrite app_nil_r. reflexivity.
  - rewrite IH, <- app_assoc. reflexivity.
Qed.

Lemma select_count (l : Z) (rows : list row) :
  select (Some l) None rows = take (Z.to_nat l) rows.
Proof. unfold select. rewrite select_loop_count. simpl. f_equal. lia. Qed.

Lemma select_unconstrained (rows : list row) : select None None rows = rows.
Proof. unfold select. apply select_loop_unconstrained. Qed.

(** ** Facts on dictionaries *)

Section DictFacts.
Context {V : Type}.
Implicit Types (d : dict V) (k : str) (v : V).

Lemma dict_get_None k d : dict_get k d = None <-> k ∉ dict_keys d.
Proof.
  unfold dict_keys. induction d as [|[k' v'] d IH]; simpl.
  - split; [intros _; apply not_elem_of_nil|reflexivity].
  - rewrite not_elem_of_cons. destruct (decide (k = k')) as [->|Hne].
    + split; [discriminate|intros [? _]; congruence].
    + rewrite IH. tauto.
Qed.

Lemma dict_get_Some_elem k v d : dict_get k d = Some v -> (k, v) ∈ d.
Proof.
  induction d as [|[k' v'] d IH]; simpl; [discriminate|].
  destruct (decide (k = k')) as [->|Hne].
  - intros [= ->]. apply list_elem_of_here.
  - intros H. apply list_elem_of_further, IH, H.
Qed.

Lemma dict_get_NoDup k v d :
  NoDup (dict_keys d) -> (k, v) ∈ d -> dict_get k d = Some v.
Proof.
  unfold dict_keys. induction d as [|[k' v'] d IH]; simpl.
  - intros _ H. apply elem_of_nil in H as [].
  - rewrite NoDup_cons. intros [Hk Hd] [[= -> ->]|H]%elem_of_cons.
    + rewrite decide_True by reflexivity. reflexivity.
    + destruct (decide (k = k')) as [->|Hne]; [|auto].
      exfalso. apply Hk. apply (list_elem_of_fmap_2 fst) in H. exact H.
Qed.

Lemma dict_get_is_Some k d : is_Some (dict_get k d) <-> k ∈ dict_keys d.
Proof.
  rewrite <- not_eq_None_Some, dict_get_None.
  split; [apply dec_stable|auto].
Qed.

Lemma dict_mem_keys k d : dict_mem k d = true <-> k ∈ dict_keys d.
Proof.
  rewrite <- dict_get_is_Some. unfold dict_mem.
  destruct (dict_get k d); split; auto; try discriminate.
  intros []; discriminate.
Qed.

Lemma dict_get_set k k' v d :
  dict_get k (dict_set k' v d)
  = if decide (k = k') then Some v else dict_get k d.
Proof.
  induction d as [|[k0 v0] d IH]; simpl.
  - destruct (decide (k = k')); reflexivity.
  - destruct (decide (k' = k0)) as [->|Hne]; simpl.
    + destruct (decide (k = k0)); reflexivity.
    + rewrite IH. destruct (decide (k = k0)) as [->|]; [|reflexivity].
      rewrite decide_False by congruence. reflexivity.
Qed.

Lemma dict_set_fresh k v d :
  k ∉ dict_keys d -> dict_set k v d = d ++ [(k, v)].
Proof.
  unfold dict_keys. induction d as [|[k0 v0] d IH]; simpl; [reflexivity|].
  rewrite not_elem_of_cons. intros [Hne Hd].
  rewrite decide_False by assumption. rewrite IH by assumption. reflexivity.
Qed.

Lemma dict_keys_set k v d :
  k ∈ dict_keys d -> dict_keys (dict_set k v d) = dict_keys d.
Proof.
  unfold dict_keys. induction d as [|[k0 v0] d IH]; simpl.
  - intros H. apply elem_of_nil in H as [].
  - destruct (decide (k = k0)) as [->|Hne]; [reflexivity|].
    rewrite elem_of_cons. intros [?|H]; [congruence|].
    simpl. f_equal. apply IH, H.
Qed.

Lemma dict_set_NoDup k v d :
  NoDup (dict_keys d) -> NoDup (dict_keys (dict_set k v d)).
Proof.
  intros Hd. destruct (decide (k ∈ dict_keys d)) as [Hin|Hout].
  - rewrite dict_keys_set by assumption. assumption.
  - rewrite dict_set_fresh by assumption. unfold dict_keys in *.
    rewrite fmap_app. simpl. apply NoDup_app. split; [assumption|].
    split; [|apply NoDup_singleton].
    intros x Hx ->%list_elem_of_singleton. contradiction.
Qed.

Lemma dict_keys_alter (f : V -> V) k d :
  dict_keys (dict_alter f k d) = dict_keys d.
Proof.
  unfold dict_keys. induction d as [|[k0 v0] d IH]; simpl; [reflexivity|].
  destruct (decide (k = k0)); simpl; [reflexivity|]. f_equal. apply IH.
Qed.

Lemma dict_get_alter (f : V -> V) k k' d :
  dict_get k (dict_alter f k' d)
  = if decide (k = k') then f <$> dict_get k d else dict_get k d.
Proof.
  induction d as [|[k0 v0] d IH]; simpl.
  - destruct (decide (k = k')); reflexivity.
  - destruct (decide (k' = k0)) as [->|Hne]; simpl.
    + destruct (decide (k = k0)); reflexivity.
    + rewrite IH. destruct (decide (k = k0)) as [->|]; [|reflexivity].
      rewrite decide_False by congruence. reflexivity.
Qed.

Lemma dict_of_list_NoDup (l : list (str * V)) :
  NoDup (dict_keys (dict_of_list l)).
Proof.
  unfold dict_of_list.
  assert (H : forall d, NoDup (dict_keys d) ->
              NoDup (dict_keys (foldl (fun d kv => dict_set kv.1 kv.2 d) d l))).
  { induction l as [|[k v] l IH]; intros d Hd; simpl; [assumption|].
    apply IH, dict_set_NoDup, Hd. }
  apply H. apply NoDup_nil_2.
Qed.

Lemma dict_of_list_id (l : list (str * V)) :
  NoDup l.*1 -> dict_of_list l = l.
Proof.
  unfold dict_of_list.
  assert (H : forall d, NoDup (d ++ l).*1 ->
              foldl (fun d kv => dict_set kv.1 kv.2 d) d l = d ++ l).
  { induction l as [|[k v] l IH]; intros d Hd; simpl.
    - rewrite app_nil_r. reflexivity.
    - rewrite dict_set_fresh.
      + rewrite IH; rewrite <- app_assoc; [reflexivity|exact Hd].
      + rewrite fmap_app in Hd. apply NoDup_app in Hd as (_ & Hd & _).
        intros Hk. apply (Hd k Hk). simpl. apply list_elem_of_here. }
  intros Hl. apply (H []). exact Hl.
Qed.
End DictFacts.

(** ** Facts on loops *)

Lemma for_each_fst {A S} (body : A -> S -> W S) (l : list A) (s : S) :
  (for_each body l s).1 = foldl (fun s a => (body a s).1) s l.
Proof.
  revert s. induction l as [|a l IH]; intros s; simpl; [reflexivity|].
  apply IH.
Qed.

Lemma for_each_snd_Forall {A S} (P : event -> Prop) (body : A -> S -> W S)
    (l : list A) (s : S) :
  (forall a s, Forall P (body a s).2) -> Forall P (for_each body l s).2.
Proof.
  intros Hbody. revert s. induction l as [|a l IH]; intros s; simpl.
  - constructor.
  - apply Forall_app. split; [apply Hbody|apply IH].
Qed.

Section PassFacts.
Variable cfg : config.
Variable w : world.

Lemma tag_step_fst (item : str * str) (note_tags : dict (gset str)) :
  (tag_step cfg w item note_tags).1
  = match tags_of cfg w item.2 with
    | Some t => dict_set item.1 t note_tags
    | None => note_tags
    end.
Proof.
  unfold tag_step, tags_of, content_of, wbind. simpl.
  destruct (safe_read_file w TagPass _ _).1; reflexivity.
Qed.

Lemma tag_fold_get (l : dict str) (d0 : dict (gset str)) (n : str) :
  NoDup (dict_keys l) ->
  dict_get n (foldl (fun s a => (tag_step cfg w a s).1) d0 l)
  = match dict_get n l ≫= tags_of cfg w with
    | Some t => Some t
    | None => dict_get n d0
    end.
Proof.
  unfold dict_keys. revert d0.
  induction l as [|[k f] l IH]; intros d0 Hl; [reflexivity|].
  cbn [foldl]. cbn in Hl. apply NoDup_cons in Hl as [Hk Hl].
  rewrite IH by assumption. rewrite tag_step_fst. cbn [dict_get fst snd].
  destruct (decide (n = k)) as [->|Hne]; cbn [mbind option_bind].
  - apply dict_get_None in Hk. rewrite Hk. cbn [mbind option_bind].
    destruct (tags_of cfg w f); [|reflexivity].
    rewrite dict_get_set, decide_True by reflexivity. reflexivity.
  - destruct (dict_get n l ≫= tags_of cfg w); [reflexivity|].
    destruct (tags_of cfg w f); [|reflexivity].
    rewrite dict_get_set, decide_False by assumption. reflexivity.
Qed.

(** The tag index has an entry for a note exactly when the note was read
    during extraction; the entry holds the tags of its content. *)
Lemma tag_pass_get (notes : dict str) (n : str) :
  NoDup (dict_keys notes) ->
  dict_get n (tag_pass cfg w notes).1 = dict_get n notes ≫= tags_of cfg w.
Proof.
  intros Hn. unfold tag_pass. rewrite for_each_fst, tag_fold_get by assumption.
  simpl. destruct (dict_get n notes ≫= tags_of cfg w); reflexivity.
Qed.

(** *** Tag filter *)

Lemma note_passes_filter_spec (note_tags : dict (gset str)) (n : str) :
  note_passes_filter cfg note_tags n = true
  <-> (select_tags cfg ≠ ∅ ->
         select_tags cfg ⊆ default ∅ (dict_get n note_tags))
      /\ (ignore_tags cfg ≠ ∅ ->
            default ∅ (dict_get n note_tags) ## ignore_tags cfg).
Proof.
  unfold note_passes_filter.
  repeat case_bool_decide; simpl; split; try discriminate; try tauto;
    intros [? ?]; tauto.
Qed.

Lemma filtered_notes_of_filter (notes : dict str)
    (note_tags : dict (gset str)) :
  NoDup (dict_keys notes) ->
  filtered_notes_of cfg notes note_tags
  = List.filter (fun item => dict_mem item.1 note_tags
                             && note_passes_filter cfg note_tags item.1)
                notes.
Proof.
  intros Hn. unfold filtered_notes_of.
  assert (Heq : forall l : dict str,
    (forall k f, (k, f) ∈ l -> dict_get k notes = Some f) ->
    omap (fun n => if dict_mem n note_tags && note_passes_filter cfg note_tags n
                   then (fun f => (n, f)) <$> dict_get n notes else None)
         (dict_keys l)
    = List.filter (fun item => dict_mem item.1 note_tags
                               && note_passes_filter cfg note_tags item.1) l).
  { induction l as [|[k f] l IH]; intros Hl; [reflexivity|].
    unfold dict_keys in *. cbn [fmap list_fmap omap list_omap List.filter fst].
    rewrite (Hl k f) by apply list_elem_of_here.
    rewrite <- IH by (intros; apply Hl, list_elem_of_further; assumption).
    destruct (dict_mem k note_tags && note_passes_filter cfg note_tags k);
      reflexivity. }
  rewrite Heq by (intros; apply dict_get_NoDup; assumption).
  apply dict_of_list_id.
  eapply sublist_NoDup; [exact Hn|].
  unfold dict_keys. apply fmap_sublist.
  clear. induction notes as [|x l IH]; simpl; [constructor|].
  destruct (_ && _); [apply sublist_skip|apply sublist_cons]; exact IH.
Qed.
End PassFacts.

Section LinkFacts.
Variable cfg : config.
Variable w : world.

(** *** Link extraction *)

Lemma add_links_keys (filtered : dict str) (note : str)
    (found : list str) (out : dict (gset str)) :
  dict_keys (add_links filtered note found out) = dict_keys out.
Proof.
  unfold add_links. revert out.
  induction found as [|l found IH]; intros out; [reflexivity|].
  cbn [foldl]. rewrite IH.
  destruct (_ && _); [apply dict_keys_alter|reflexivity].
Qed.

Lemma add_links_get (filtered : dict str) (note : str)
    (found : list str) (out : dict (gset str)) (k : str) :
  dict_get k (add_links filtered note found out)
  = if decide (k = note)
    then (fun s => valid_targets filtered note found ∪ s) <$> dict_get k out
    else dict_get k out.
Proof.
  unfold add_links, valid_targets. revert out.
  induction found as [|l found IH]; intros out.
  - cbn. destruct (decide (k = note)); [|reflexivity].
    destruct (dict_get k out); [|reflexivity].
    cbn. f_equal. symmetry. apply (left_id_L ∅ (∪)).
  - cbn [foldl List.map List.filter]. rewrite IH.
    destruct (decide (k = note)) as [->|Hne].
    + destruct (dict_mem (strip l) filtered
                && negb (bool_decide (strip l = note))).
      * rewrite dict_get_alter, decide_True by reflexivity.
        destruct (dict_get note out) as [s|]; [|reflexivity].
        cbn [fmap option_fmap option_map list_to_set foldr]. f_equal.
        rewrite (assoc_L (∪)), (comm_L (∪) _ {[strip l]}). reflexivity.
      * reflexivity.
    + destruct (_ && _); [|reflexivity].
      rewrite dict_get_alter, decide_False by assumption. reflexivity.
Qed.

Lemma link_step_keys (filtered : dict str) (item : nat * (str * str))
    (out : dict (gset str)) :
  dict_keys (link_step cfg w filtered item out).1 = dict_keys out.
Proof.
  unfold link_step, wbind. cbn [fst].
  destruct (safe_read_file w LinkPass _ _).1; [|reflexivity].
  cbn [fst]. apply add_links_keys.
Qed.

Lemma link_step_get (filtered : dict str) (item : nat * (str * str))
    (out : dict (gset str)) (k : str) :
  dict_get k (link_step cfg w filtered item out).1
  = if decide (k = item.2.1)
    then (fun s => links_of cfg w filtered item.2.1 item.2.2 ∪ s) <$> dict_get k out
    else dict_get k out.
Proof.
  unfold link_step, links_of, content_of, wbind. cbn [fst].
  destruct (safe_read_file w LinkPass _ _).1.
  - cbn [fst]. apply add_links_get.
  - unfold wret. cbn [fst]. destruct (decide _); [|reflexivity].
    destruct (dict_get k out); [|reflexivity]. cbn. f_equal.
    symmetry. apply (left_id_L ∅ (∪)).
Qed.

Lemma link_fold_keys (filtered l : dict str) (i : nat)
    (d0 : dict (gset str)) :
  dict_keys (foldl (fun s a => (link_step cfg w filtered a s).1) d0
               (enumerate i l))
  = dict_keys d0.
Proof.
  revert i d0. induction l as [|[k f] l IH]; intros i d0; [reflexivity|].
  cbn [enumerate foldl]. rewrite IH. apply link_step_keys.
Qed.

Lemma link_fold_get (filtered l : dict str) (i : nat)
    (d0 : dict (gset str)) (k : str) :
  NoDup (dict_keys l) ->
  dict_get k (foldl (fun s a => (link_step cfg w filtered a s).1) d0
                (enumerate i l))
  = match dict_get k l with
    | Some f => (fun s => links_of cfg w filtered k f ∪ s) <$> dict_get k d0
    | None => dict_get k d0
    end.
Proof.
  unfold dict_keys. revert i d0.
  induction l as [|[n f] l IH]; intros i d0 Hl; [reflexivity|].
  cbn in Hl. apply NoDup_cons in Hl as [Hn Hl].
  cbn [enumerate foldl dict_get]. rewrite IH by assumption.
  rewrite link_step_get. cbn [fst snd].
  destruct (decide (k = n)) as [->|Hne].
  - apply dict_get_None in Hn. rewrite Hn. reflexivity.
  - reflexivity.
Qed.

Lemma dict_get_init {V} (l : list str) (v : V) (k : str) :
  dict_get k (List.map (fun n => (n, v)) l)
  = if decide (k ∈ l) then Some v else None.
Proof.
  induction l as [|n l IH]; cbn [List.map dict_get].
  - rewrite decide_False by apply not_elem_of_nil. reflexivity.
  - destruct (decide (k = n)) as [->|Hne].
    + rewrite decide_True by apply list_elem_of_here. reflexivity.
    + rewrite IH. destruct (decide (k ∈ l)) as [Hin|Hout].
      * rewrite decide_True by (apply list_elem_of_further; exact Hin).
        reflexivity.
      * rewrite decide_False; [reflexivity|].
        rewrite not_elem_of_cons. auto.
Qed.

Lemma dict_keys_init {V} (l : list str) (v : V) :
  dict_keys (List.map (fun n => (n, v)) l) = l.
Proof.
  unfold dict_keys. induction l as [|n l IH]; cbn; [reflexivity|].
  f_equal. exact IH.
Qed.

(** The keys of [outgoing_links] are those of [filtered_notes]: the
    assignments [outgoing_links[note_name].add(target)] find their key. *)
Lemma keys_link_pass (filtered : dict str) :
  dict_keys (link_pass cfg w filtered).1 = dict_keys filtered.
Proof.
  unfold link_pass. rewrite for_each_fst, link_fold_keys.
  apply dict_keys_init.
Qed.

Lemma link_pass_get (filtered : dict str) (n f : str) :
  NoDup (dict_keys filtered) -> (n, f) ∈ filtered ->
  dict_get n (link_pass cfg w filtered).1 = Some (links_of cfg w filtered n f).
Proof.
  intros Hnd Hin. unfold link_pass.
  rewrite for_each_fst, link_fold_get by assumption.
  rewrite (dict_get_NoDup n f) by assumption.
  rewrite dict_get_init, decide_True.
  - cbn. f_equal. apply (right_id_L ∅ (∪)).
  - unfold dict_keys. apply (list_elem_of_fmap_2 fst) in Hin. exact Hin.
Qed.

(** *** In-degrees *)

Lemma incoming_inner_keys (note : str) (items : dict (gset str))
    (inc : dict nat) :
  dict_keys (foldl (fun inc (item : str * gset str) =>
                      if bool_decide (note ∈ item.2)
                      then dict_alter S note inc else inc) inc items)
  = dict_keys inc.
Proof.
  revert inc. induction items as [|it items IH]; intros inc; [reflexivity|].
  cbn [foldl]. rewrite IH. destruct (bool_decide _); [|reflexivity].
  apply dict_keys_alter.
Qed.

Lemma incoming_inner_get (note : str) (items : dict (gset str))
    (inc : dict nat) (k : str) :
  dict_get k (foldl (fun inc (item : str * gset str) =>
                       if bool_decide (note ∈ item.2)
                       then dict_alter S note inc else inc) inc items)
  = if decide (k = note)
    then (fun c => (c + length (sources_of note items))%nat) <$> dict_get k inc
    else dict_get k inc.
Proof.
  unfold sources_of. revert inc.
  induction items as [|it items IH]; intros inc.
  - cbn. destruct (decide _); [|reflexivity].
    destruct (dict_get k inc); cbn; [f_equal; lia|reflexivity].
  - cbn [foldl List.filter]. rewrite IH.
    destruct (decide (k = note)) as [->|Hne].
    + destruct (bool_decide (note ∈ it.2)); [|reflexivity].
      rewrite dict_get_alter, decide_True by reflexivity.
      destruct (dict_get note inc); cbn; [f_equal; lia|reflexivity].
    + destruct (bool_decide _); [|reflexivity].
      rewrite dict_get_alter, decide_False by assumption. reflexivity.
Qed.

Lemma incoming_outer_keys (l : list str) (outgoing : dict (gset str))
    (inc : dict nat) :
  dict_keys
    (foldl (fun inc note =>
              foldl (fun inc (item : str * gset str) =>
                       if bool_decide (note ∈ item.2)
                       then dict_alter S note inc else inc) inc outgoing)
           inc l)
  = dict_keys inc.
Proof.
  revert inc. induction l as [|n l IH]; intros inc; [reflexivity|].
  cbn [foldl]. rewrite IH. apply incoming_inner_keys.
Qed.

Lemma incoming_outer_get (l : list str) (outgoing : dict (gset str))
    (inc : dict nat) (k : str) :
  NoDup l ->
  dict_get k
    (foldl (fun inc note =>
              foldl (fun inc (item : str * gset str) =>
                       if bool_decide (note ∈ item.2)
                       then dict_alter S note inc else inc) inc outgoing)
           inc l)
  = if decide (k ∈ l)
    then (fun c => (c + length (sources_of k outgoing))%nat) <$> dict_get k inc
    else dict_get k inc.
Proof.
  revert inc. induction l as [|n l IH]; intros inc Hl.
  - cbn [foldl]. rewrite decide_False by apply not_elem_of_nil. reflexivity.
  - apply NoDup_cons in Hl as [Hn Hl]. cbn [foldl].
    rewrite IH by assumption. rewrite incoming_inner_get.
    destruct (decide (k = n)) as [->|Hne].
    + rewrite decide_False by assumption.
      rewrite decide_True by apply list_elem_of_here. reflexivity.
    + destruct (decide (k ∈ l)) as [Hin|Hout].
      * rewrite decide_True by (apply list_elem_of_further; exact Hin).
        reflexivity.
      * rewrite decide_False; [reflexivity|].
        rewrite not_elem_of_cons. auto.
Qed.

(** The keys of [incoming_links_count] are those of [filtered_notes]. *)
Lemma keys_count_incoming (filtered : dict str) (outgoing : dict (gset str)) :
  dict_keys (count_incoming filtered outgoing) = dict_keys filtered.
Proof.
  unfold count_incoming. rewrite incoming_outer_keys. apply dict_keys_init.
Qed.

Lemma count_incoming_get (filtered : dict str) (outgoing : dict (gset str))
    (n : str) :
  NoDup (dict_keys filtered) -> n ∈ dict_keys filtered ->
  dict_get n (count_incoming filtered outgoing)
  = Some (length (sources_of n outgoing)).
Proof.
  intros Hnd Hin. unfold count_incoming.
  rewrite incoming_outer_get by assumption.
  rewrite decide_True by assumption.
  rewrite dict_get_init, decide_True by assumption. reflexivity.
Qed.

(** The number of entries of [outgoing] whose set holds [n] is the
    cardinal of the set of keys whose set holds [n]. *)
Lemma sources_of_size (outgoing : dict (gset str)) (keys : list str)
    (n : str) :
  NoDup (dict_keys outgoing) -> dict_keys outgoing = keys ->
  length (sources_of n outgoing)
  = size (filter (fun m => n ∈ dict_item ∅ m outgoing)
                 (list_to_set keys : gset str)).
Proof.
  intros Hnd <-.
  assert (Hk : NoDup (sources_of n outgoing).*1).
  { eapply sublist_NoDup; [exact Hnd|]. unfold dict_keys, sources_of.
    apply fmap_sublist. clear.
    induction outgoing as [|x l IH]; simpl; [constructor|].
    destruct (bool_decide _); [apply sublist_skip|apply sublist_cons]; exact IH. }
  rewrite <- (length_fmap fst), <- (size_list_to_set (C := gset str)) by exact Hk.
  f_equal. apply set_eq. intros m.
  rewrite elem_of_filter, !elem_of_list_to_set. unfold sources_of, dict_item.
  rewrite list_elem_of_fmap. split.
  - intros ([m' s] & -> & [Hin Hs]%list_elem_of_In%filter_In).
    apply list_elem_of_In in Hin. apply bool_decide_eq_true in Hs.
    cbn [fst snd] in *.
    rewrite (dict_get_NoDup m' s) by assumption. cbn.
    split; [exact Hs|]. apply (list_elem_of_fmap_2 fst) in Hin. exact Hin.
  - intros [Hn Hm]. apply dict_get_is_Some in Hm as [s Hs].
    rewrite Hs in Hn. cbn in Hn. exists (m, s). split; [reflexivity|].
    apply list_elem_of_In, filter_In. split.
    + apply list_elem_of_In, dict_get_Some_elem, Hs.
    + apply bool_decide_eq_true. exact Hn.
Qed.
End LinkFacts.

(** *** Ranking *)

Lemma insert_desc_perm (x : row) (l : list row) : insert_desc x l ≡ₚ x :: l.
Proof.
  induction l as [|y l IH]; simpl; [reflexivity|].
  destruct (r_total x <? r_total y)%nat; [|reflexivity].
  rewrite IH. apply Permutation_swap.
Qed.

Lemma sort_desc_perm (l : list row) : sort_desc l ≡ₚ l.
Proof.
  induction l as [|x l IH]; simpl; [reflexivity|].
  rewrite insert_desc_perm, IH. reflexivity.
Qed.

Lemma insert_desc_sorted (x : row) (l : list row) :
  Sorted ranked_before l -> Sorted ranked_before (insert_desc x l).
Proof.
  induction l as [|y l IH]; simpl; intros Hl.
  - repeat constructor.
  - destruct (Nat.ltb_spec (r_total x) (r_total y)) as [Hlt|Hge].
    + apply Sorted_inv in Hl as [Hl Hy]. constructor; [apply IH, Hl|].
      destruct l as [|z l]; simpl.
      * constructor. unfold ranked_before. lia.
      * destruct (Nat.ltb_spec (r_total x) (r_total z)).
        -- apply HdRel_inv in Hy. constructor. exact Hy.
        -- constructor. unfold ranked_before. lia.
    + constructor; [exact Hl|]. constructor. exact Hge.
Qed.

Lemma sort_desc_sorted (l : list row) : Sorted ranked_before (sort_desc l).
Proof.
  induction l as [|x l IH]; simpl; [constructor|].
  apply insert_desc_sorted, IH.
Qed.

Section SizeFacts.
Variable cfg : config.
Variable w : world.

Lemma size_step_fst (filtered : dict str) (outgoing : dict (gset str))
    (incoming : dict nat) (note : str) (data : list row) :
  (size_step cfg w filtered outgoing incoming note data).1
  = data ++ match record_of cfg w outgoing incoming
                    (note, dict_item [] note filtered) with
            | Some r => [r]
            | None => []
            end.
Proof.
  unfold size_step, record_of, wbind, wret. cbn [fst snd].
  destruct (os_isfile w _); cbn [negb fst].
  - destruct (os_getsize w _); reflexivity.
  - rewrite app_nil_r. reflexivity.
Qed.

Lemma size_pass_fst (filtered : dict str) (outgoing : dict (gset str))
    (incoming : dict nat) :
  NoDup (dict_keys filtered) ->
  (size_pass cfg w filtered outgoing incoming).1
  = omap (record_of cfg w outgoing incoming) filtered.
Proof.
  intros Hnd. unfold size_pass. rewrite for_each_fst.
  assert (H : forall (l : dict str) (d0 : list row),
    (forall k f, (k, f) ∈ l -> dict_get k filtered = Some f) ->
    foldl (fun s a => (size_step cfg w filtered outgoing incoming a s).1)
          d0 (dict_keys l)
    = d0 ++ omap (record_of cfg w outgoing incoming) l).
  { induction l as [|[k f] l IH]; intros d0 Hl.
    - cbn. rewrite app_nil_r. reflexivity.
    - unfold dict_keys in *. cbn [fmap list_fmap foldl fst].
      rewrite IH by (intros; apply Hl, list_elem_of_further; assumption).
      rewrite size_step_fst.
      assert (Hf : dict_item [] k filtered = f).
      { unfold dict_item. transitivity (default [] (Some f)); [|reflexivity].
        f_equal. apply Hl, list_elem_of_here. }
      rewrite Hf, <- app_assoc. f_equal.
      change (omap (record_of cfg w outgoing incoming) ((k, f) :: l))
        with (match record_of cfg w outgoing incoming (k, f) with
              | Some r => r :: omap (record_of cfg w outgoing incoming) l
              | None => omap (record_of cfg w outgoing incoming) l
              end).
      destruct (record_of cfg w outgoing incoming (k, f)); reflexivity. }
  apply (H filtered []). intros. apply dict_get_NoDup; assumption.
Qed.
End SizeFacts.

(** *** The analysis *)

Section AnalysisFacts.
Variable cfg : config.
Variable w : world.
Variable entries : list str.

Local Abbreviation a := (analyse cfg w entries).1.

Lemma analyse_notes :
  a_notes a = notes_of (List.filter (fun f => endswith f dot_md) entries).
Proof. reflexivity. Qed.

Lemma analyse_note_tags : a_note_tags a = (tag_pass cfg w (a_notes a)).1.
Proof. reflexivity. Qed.

Lemma analyse_filtered :
  a_filtered a = filtered_notes_of cfg (a_notes a) (a_note_tags a).
Proof. reflexivity. Qed.

Lemma analyse_outgoing : a_outgoing a = (link_pass cfg w (a_filtered a)).1.
Proof. reflexivity. Qed.

Lemma analyse_incoming :
  a_incoming a = count_incoming (a_filtered a) (a_outgoing a).
Proof. reflexivity. Qed.

Lemma analyse_data :
  a_data a
  = sort_desc (size_pass cfg w (a_filtered a) (a_outgoing a)
                 (a_incoming a)).1.
Proof. reflexivity. Qed.

Lemma notes_NoDup : NoDup (dict_keys (a_notes a)).
Proof. rewrite analyse_notes. apply dict_of_list_NoDup. Qed.

Lemma filtered_NoDup : NoDup (dict_keys (a_filtered a)).
Proof.
  rewrite analyse_filtered. unfold filtered_notes_of.
  apply dict_of_list_NoDup.
Qed.
End AnalysisFacts.

(** ** Traces *)

Lemma written_app (path : str) (t1 t2 : list event) :
  written path (t1 ++ t2) = written path t1 ++ written path t2.
Proof. unfold written. rewrite omap_app, concat_app. reflexivity. Qed.

Lemma written_not_write (path : str) (t : list event) :
  Forall not_write t -> written path t = [].
Proof.
  unfold written. induction 1 as [|e t He _ IH]; [reflexivity|].
  destruct e; try contradiction; exact IH.
Qed.

Lemma wbind_fst {A B} (m : W A) (k : A -> W B) :
  (wbind m k).1 = (k m.1).1.
Proof. reflexivity. Qed.

Lemma wbind_snd {A B} (m : W A) (k : A -> W B) :
  (wbind m k).2 = m.2 ++ (k m.1).2.
Proof. reflexivity. Qed.

Create HintDb prints.

(** Traces of the parts that only print. *)
Section Prints.
Variable P : event -> Prop.
Hypothesis P_print : forall l m, P (Print l m).

Lemma wbind_Forall {A B} (m : W A) (k : A -> W B) :
  Forall P m.2 -> (forall a, Forall P (k a).2) -> Forall P (wbind m k).2.
Proof. intros Hm Hk. rewrite wbind_snd. apply Forall_app. auto. Qed.

Lemma wret_Forall {A} (a : A) : Forall P (wret a).2.
Proof. constructor. Qed.

Lemma log_Forall (l : level) (m : message) (v : bool) : Forall P (log l m v).2.
Proof. unfold log. destruct v; simpl; repeat constructor. apply P_print. Qed.

Lemma safe_read_file_Forall (w : world) (ps : pass) (p : str) (v : bool) :
  Forall P (safe_read_file w ps p v).2.
Proof.
  unfold safe_read_file. destruct (read_text w ps p); [apply wret_Forall|].
  apply wbind_Forall; [apply log_Forall|intros; apply wret_Forall].
Qed.

Hint Resolve wret_Forall log_Forall safe_read_file_Forall : prints.

Ltac prints :=
  repeat first
    [ solve [auto with prints]
    | apply wbind_Forall; [|intros]
    | apply for_each_snd_Forall; intros
    | match goal with
      | |- Forall _ (match ?x with _ => _ end).2 => destruct x
      | |- Forall _ (if ?x then _ else _).2 => destruct x
      end ].

Lemma tag_pass_Forall (cfg : config) (w : world) (notes : dict str) :
  Forall P (tag_pass cfg w notes).2.
Proof. unfold tag_pass, tag_step. prints. Qed.

Lemma link_pass_Forall (cfg : config) (w : world) (filtered : dict str) :
  Forall P (link_pass cfg w filtered).2.
Proof. unfold link_pass, link_step. prints. Qed.

Lemma size_pass_Forall (cfg : config) (w : world) (filtered : dict str)
    (outgoing : dict (gset str)) (incoming : dict nat) :
  Forall P (size_pass cfg w filtered outgoing incoming).2.
Proof. unfold size_pass, size_step. prints. Qed.

Hint Resolve tag_pass_Forall link_pass_Forall size_pass_Forall : prints.

Lemma analyse_Forall (cfg : config) (w : world) (entries : list str) :
  Forall P (analyse cfg w entries).2.
Proof. unfold analyse. prints. Qed.

Lemma report_dry_run_Forall (cfg : config) (sel : list row) :
  Forall P (report_dry_run cfg sel).2.
Proof. unfold report_dry_run. prints. Qed.

Hint Resolve analyse_Forall report_dry_run_Forall : prints.

Lemma write_csv_dry_Forall (cfg : config) (w : world) (data : list row) :
  dry_run cfg = true -> Forall P (write_csv cfg w data).2.
Proof.
  intros Hd. unfold write_csv. rewrite Hd, andb_false_r. prints.
Qed.

Lemma export_dry_Forall (cfg : config) (w : world) (data : list row) :
  dry_run cfg = true -> Forall P (export cfg w data).2.
Proof.
  intros Hd. unfold export. rewrite Hd.
  apply wbind_Forall; [apply write_csv_dry_Forall, Hd|intros _].
  prints.
Qed.

Hint Resolve export_dry_Forall : prints.

Lemma main_dry_Forall (cfg : config) (w : world) :
  dry_run cfg = true -> Forall P (main cfg w).2.
Proof. intros Hd. unfold main. prints. Qed.
End Prints.

Section ExportFacts.
Variable cfg : config.
Variable w : world.

(** The value of [export]: the selection under the two limits. *)
Lemma export_fst (data : list row) :
  (export cfg w data).1
  = match max_notes_limit_of (copy_top cfg) (copy_top_percent cfg)
            (length data) with
    | inl e => inl e
    | inr lim =>
        match max_size_bytes_of (copy_until_size cfg) with
        | inl e => inl e
        | inr cap => inr (select lim cap data)
        end
    end.
Proof.
  unfold export. rewrite wbind_fst.
  destruct (max_notes_limit_of _ _ _); [reflexivity|].
  destruct (max_size_bytes_of _); [reflexivity|].
  rewrite wbind_fst. destruct (dry_run cfg); reflexivity.
Qed.

Lemma main_fst :
  (main cfg w).1
  = match os_listdir w (input_dir cfg) with
    | None => inl OSError
    | Some entries => (export cfg w (a_data (analyse cfg w entries).1)).1
    end.
Proof.
  unfold main. rewrite !wbind_fst.
  destruct (os_listdir w (input_dir cfg)); reflexivity.
Qed.

Lemma main_snd_listed (entries : list str) :
  os_listdir w (input_dir cfg) = Some entries ->
  exists t,
    (main cfg w).2
    = t ++ (export cfg w (a_data (analyse cfg w entries).1)).2
    /\ Forall (fun e => mutates e = false) t.
Proof.
  intros Hl. unfold main. rewrite Hl.
  exists ((log INFO MStarting (verbose cfg)).2
          ++ (log INFO (MInputDirectory (input_dir cfg)) (verbose cfg)).2
          ++ (log INFO (MOutputCsv (output_csv cfg)) (verbose cfg)).2
          ++ (if dry_run cfg then log INFO MDryRunMode (verbose cfg)
              else wret tt).2
          ++ (analyse cfg w entries).2).
  split.
  - rewrite !wbind_snd, <- !app_assoc. reflexivity.
  - rewrite !Forall_app.
    split_and!; try (apply log_Forall; reflexivity).
    + destruct (dry_run cfg); [apply log_Forall|constructor]; reflexivity.
    + apply analyse_Forall. reflexivity.
Qed.

Lemma write_csv_not_write (data : list row) :
  Forall not_write (write_csv cfg w data).2.
Proof.
  assert (Hl : forall l m v, Forall not_write (log l m v).2)
    by (intros; apply log_Forall; intros; exact I).
  unfold write_csv.
  destruct (negb (no_csv cfg) && negb (dry_run cfg)).
  - rewrite !wbind_snd. rewrite !Forall_app. split_and!; auto.
    + repeat constructor.
    + destruct (open_w_ok w (output_csv cfg)); auto.
      rewrite wbind_snd. apply Forall_app. split; auto.
      constructor; [exact I|]. apply Forall_fmap, Forall_true; intros; exact I.
  - destruct (no_csv cfg); auto. destruct (dry_run cfg); auto.
Qed.

Lemma copy_phase_not_write (sel : list row) :
  Forall not_write (copy_phase cfg w sel).2.
Proof.
  assert (Hl : forall l m v, Forall not_write (log l m v).2)
    by (intros; apply log_Forall; intros; exact I).
  unfold copy_phase. destruct (copy_dest cfg) as [dest|]; [|constructor].
  destruct (nonempty sel); [|constructor].
  rewrite !wbind_snd, !Forall_app. split_and!; auto.
  - destruct (negb (os_exists w dest)); [|constructor].
    rewrite wbind_snd. apply Forall_app. split; [repeat constructor|].
    destruct (makedirs_ok w dest); [constructor|auto].
  - apply for_each_snd_Forall. intros item u.
    unfold copy_step, safe_copy_file. rewrite !wbind_snd, !Forall_app.
    split_and!; [repeat constructor| |].
    + destruct (copyfile_ok w _ _); [constructor|].
      rewrite wbind_snd. apply Forall_app. split; [auto|constructor].
    + destruct (wbind _ _).1; auto.
Qed.

Lemma written_Write (path text : str) :
  written path [Write path text] = text.
Proof.
  unfold written. cbn. rewrite decide_True by reflexivity.
  cbn. apply app_nil_r.
Qed.

(** The text the combination loop writes for the selection [sel] of
    which [i] notes came before, when every note is read. *)
Lemma combine_loop_written (out_md : str) (n i : nat) (sel : list row)
    (contents : list str) (u : unit) :
  (i + length sel = n)%nat ->
  Forall2 (fun r c => content_of cfg w CombinePass (r_filename r) = Some c)
          sel contents ->
  written out_md
    (for_each (combine_step cfg w out_md n) (enumerate i sel) u).2
  = join blank_line contents.
Proof.
  intros Hn Hc. revert i u Hn.
  induction Hc as [|r c sel contents Hr Hc IH]; intros i u Hn; [reflexivity|].
  cbn [enumerate for_each]. rewrite wbind_snd, written_app.
  rewrite (IH (S i)) by (cbn [length] in Hn; lia).
  unfold combine_step at 1. rewrite wbind_snd, written_app.
  unfold content_of in Hr. cbn [snd fst] in *.
  rewrite (written_not_write _ _ (safe_read_file_Forall _ (fun _ _ => I) _ _ _ _)).
  rewrite Hr. rewrite wbind_snd, written_app.
  cbn [emit snd]. rewrite written_Write. cbn [app].
  destruct Hc as [|r' c' sel contents Hr' Hc].
  - cbn [length] in Hn.
    destruct (Z.ltb_spec (Z.of_nat i) (Z.of_nat n - 1)); [lia|].
    cbn. rewrite !app_nil_r. reflexivity.
  - cbn [length] in Hn.
    destruct (Z.ltb_spec (Z.of_nat i) (Z.of_nat n - 1)); [|lia].
    cbn [emit snd]. rewrite written_Write.
    cbn [join]. rewrite <- !app_assoc. reflexivity.
Qed.

Lemma combine_phase_written (out_md : str) (sel : list row)
    (contents : list str) :
  combine_md cfg = Some out_md -> open_w_ok w out_md = true ->
  Forall2 (fun r c => content_of cfg w CombinePass (r_filename r) = Some c)
          sel contents ->
  written out_md (combine_phase cfg w sel).2 = join blank_line contents.
Proof.
  intros Hc Ho Hr. unfold combine_phase. rewrite Hc.
  assert (Hl : forall l m v, written out_md (log l m v).2 = [])
    by (intros; apply written_not_write, log_Forall; intros; exact I).
  destruct sel as [|r sel].
  - inversion Hr; subst. cbn [nonempty]. apply Hl.
  - cbn [nonempty]. rewrite Ho.
    rewrite !wbind_snd, !written_app, !Hl.
    rewrite (combine_loop_written _ _ 0 _ contents) by (reflexivity || exact Hr).
    cbn. rewrite app_nil_r. reflexivity.
Qed.

Lemma export_written (out_md : str) (data sel : list row)
    (contents : list str) :
  dry_run cfg = false -> combine_md cfg = Some out_md ->
  open_w_ok w out_md = true -> (export cfg w data).1 = inr sel ->
  Forall2 (fun r c => content_of cfg w CombinePass (r_filename r) = Some c)
          sel contents ->
  written out_md (export cfg w data).2 = join blank_line contents.
Proof.
  intros Hd Hc Ho Hs Hr. rewrite export_fst in Hs. unfold export.
  assert (Hl : forall l m v, written out_md (log l m v).2 = [])
    by (intros; apply written_not_write, log_Forall; intros; exact I).
  rewrite wbind_snd, written_app.
  rewrite (written_not_write _ _ (write_csv_not_write data)).
  destruct (max_notes_limit_of _ _ _) as [|lim]; [discriminate|].
  destruct (max_size_bytes_of _) as [|cap]; [discriminate|].
  injection Hs as <-. rewrite Hd.
  rewrite !wbind_snd, !written_app.
  rewrite (written_not_write _ _ (copy_phase_not_write _)).
  rewrite (combine_phase_written out_md _ contents) by assumption.
  rewrite Hl. destruct (nonempty _); rewrite Hl; cbn; rewrite app_nil_r;
    reflexivity.
Qed.

Lemma report_dry_run_mentions (sel : list row) (r : row) :
  verbose cfg = true -> r ∈ sel ->
  Print INFO (MWouldCopy (r_filename r) (r_size r))
  ∈ (report_dry_run cfg sel).2.
Proof.
  intros Hv Hr. unfold report_dry_run. rewrite !wbind_snd.
  destruct sel as [|r0 sel]; [apply elem_of_nil in Hr as []|].
  cbn [nonempty]. rewrite wbind_snd, !elem_of_app. right. right.
  generalize dependent (r0 :: sel). clear r0 sel. intros sel Hr.
  generalize tt.
  induction Hr as [r sel|r r' sel Hr IH]; intros u; cbn [for_each];
    rewrite wbind_snd, elem_of_app.
  - left. unfold log. rewrite Hv. apply list_elem_of_here.
  - right. apply IH.
Qed.
End ExportFacts.

(** ** Facts on the link pattern *)

Lemma span_run_app (p : N -> bool) (s : str) :
  s = span_run p s ++ drop (length (span_run p s)) s.
Proof.
  induction s as [|c s IH]; [reflexivity|].
  cbn [span_run]. destruct (p c); [|reflexivity].
  cbn [length drop app]. f_equal. exact IH.
Qed.

Lemma span_run_Forall (p : N -> bool) (s : str) :
  Forall (fun c => p c = true) (span_run p s).
Proof.
  induction s as [|c s IH]; [constructor|].
  cbn [span_run]. destruct (p c) eqn:Hc; constructor; assumption.
Qed.

Lemma startswith_app (s p : str) :
  startswith s p = true -> s = p ++ drop (length p) s.
Proof.
  revert s. induction p as [|a p IH]; intros s H; [reflexivity|].
  destruct s as [|c s]; [discriminate|].
  cbn [startswith] in H. apply andb_true_iff in H as [Ha Hs].
  apply N.eqb_eq in Ha as ->. cbn [length drop app]. f_equal.
  apply IH, Hs.
Qed.

(** A match of the link pattern at the head of a text is two opening
    brackets, the captured group, which is not empty and holds no closing
    bracket, and two closing brackets. *)
Lemma match_link_spec (s g : str) :
  match_link s = Some g ->
  g <> []
  /\ Forall (fun c => c <> 93%N) g
  /\ exists post, s = [91%N; 91%N] ++ g ++ [93%N; 93%N] ++ post.
Proof.
  unfold match_link.
  destruct (startswith s [91%N; 91%N]) eqn:Hopen; [|discriminate].
  apply startswith_app in Hopen. cbn [length] in Hopen.
  pose proof (span_run_app not_rbracket (drop 2 s)) as Happ.
  pose proof (span_run_Forall not_rbracket (drop 2 s)) as Hall.
  cbv zeta.
  destruct (span_run not_rbracket (drop 2 s)) as [|c g'] eqn:Hg;
    [discriminate|].
  destruct (startswith (drop (length (c :: g')) (drop 2 s)) [93%N; 93%N])
    eqn:Hclose; [|discriminate].
  intros [= <-]. split; [discriminate|]. split.
  - eapply Forall_impl; [exact Hall|]. intros x Hx ->. discriminate.
  - apply startswith_app in Hclose. cbn [length] in Hclose.
    eexists. rewrite Hopen at 1. f_equal. rewrite Happ at 1. f_equal.
    exact Hclose.
Qed.

(** Every text [findall] captures stands between double brackets in the
    content. *)
Lemma findall_links_occurrence (content link : str) :
  link ∈ findall_links content ->
  link <> []
  /\ Forall (fun c => c <> 93%N) link
  /\ exists pre post,
       content = pre ++ [91%N; 91%N] ++ link ++ [93%N; 93%N] ++ post.
Proof.
  unfold findall_links. generalize O.
  induction content as [|c s IH]; intros skip H.
  - apply elem_of_nil in H as [].
  - cbn [findall_links_from] in H.
    assert (Hrec : forall k, link ∈ findall_links_from k s ->
              link <> [] /\ Forall (fun c => c <> 93%N) link
              /\ exists pre post,
                   c :: s = pre ++ [91%N; 91%N] ++ link ++ [93%N; 93%N] ++ post).
    { intros k Hk. destruct (IH k Hk) as (Hne & Hall & pre & post & ->).
      split; [exact Hne|]. split; [exact Hall|].
      exists (c :: pre), post. reflexivity. }
    destruct skip as [|k]; [|apply (Hrec k H)].
    destruct (match_link (c :: s)) as [g|] eqn:Hm; [|apply (Hrec O H)].
    apply elem_of_cons in H as [->|H]; [|apply (Hrec _ H)].
    destruct (match_link_spec _ _ Hm) as (Hne & Hall & post & Hpost).
    split; [exact Hne|]. split; [exact Hall|].
    exists [], post. exact Hpost.
Qed.

(** ** Facts used by several statements *)

Lemma Sorted_app_l {A} (R : A -> A -> Prop) (l1 l2 : list A) :
  Sorted R (l1 ++ l2) -> Sorted R l1.
Proof.
  induction l1 as [|x l1 IH]; simpl; intros H; [constructor|].
  apply Sorted_inv in H as [H Hx]. constructor; [apply IH, H|].
  destruct l1; [constructor|]. apply HdRel_inv in Hx. constructor. exact Hx.
Qed.

Lemma select_prefix (lim cap : option Z) (data : list row) :
  select lim cap data `prefix_of` data.
Proof.
  destruct (select_loop_spec lim cap data [] 0) as (taken & rest & -> & Hs & _).
  exists rest. unfold select. rewrite Hs. reflexivity.
Qed.

Lemma omap_record_length (cfg : config) (w : world)
    (outgoing : dict (gset str)) (incoming : dict nat) (l : dict str) :
  length (omap (record_of cfg w outgoing incoming) l)
  = length (List.filter
              (fun item => os_isfile w (path_join (input_dir cfg) item.2)) l).
Proof.
  induction l as [|item l IH]; [reflexivity|].
  cbn [omap list_omap List.filter]. unfold record_of at 1.
  destruct (os_isfile w _); cbn [length]; rewrite IH; reflexivity.
Qed.

Lemma analyse_data_perm (cfg : config) (w : world) (entries : list str) :
  let a := (analyse cfg w entries).1 in
  a_data a ≡ₚ omap (record_of cfg w (a_outgoing a) (a_incoming a))
                (a_filtered a).
Proof.
  intros a. subst a. rewrite analyse_data, sort_desc_perm.
  rewrite size_pass_fst by apply filtered_NoDup. reflexivity.
Qed.

Lemma write_csv_rows (cfg : config) (w : world) (data : list row) :
  no_csv cfg = false -> dry_run cfg = false ->
  open_w_ok w (output_csv cfg) = true ->
  csv_rows (output_csv cfg) (write_csv cfg w data).2 = data.
Proof.
  intros Hn Hd Ho. unfold write_csv. rewrite Hn, Hd, Ho. cbn [negb andb].
  assert (Hl : forall l m v, csv_rows (output_csv cfg) (log l m v).2 = []).
  { intros l m v. unfold log. destruct v; reflexivity. }
  rewrite !wbind_snd. unfold csv_rows in *. rewrite !omap_app, !Hl.
  cbn [emit snd omap list_omap app]. rewrite app_nil_r.
  induction data as [|r data IH]; [reflexivity|].
  cbn [List.map omap list_omap]. rewrite decide_True by reflexivity.
  f_equal. exact IH.
Qed.

Lemma main_with_dry_run (cfg : config) (w : world) (b : bool) :
  (main (with_dry_run b cfg) w).1 = (main cfg w).1.
Proof.
  rewrite !main_fst. cbn [with_dry_run input_dir].
  destruct (os_listdir w (input_dir cfg)) as [entries|]; [|reflexivity].
  rewrite !export_fst. reflexivity.
Qed.

(** ** Facts on degrees *)

(** The members of a set among distinct keys that hold them all. *)
Lemma filter_elem_length (K : list str) (S : gset str) :
  NoDup K -> S ⊆ list_to_set K ->
  length (List.filter (fun n => bool_decide (n ∈ S)) K) = size S.
Proof.
  intros HK HS.
  assert (Hnd : NoDup (List.filter (fun n => bool_decide (n ∈ S)) K)).
  { apply NoDup_ListNoDup, List.NoDup_filter, NoDup_ListNoDup, HK. }
  rewrite <- (size_list_to_set (C := gset str)) by exact Hnd.
  f_equal. apply set_eq. intros n.
  rewrite elem_of_list_to_set, list_elem_of_In, filter_In, bool_decide_eq_true.
  rewrite <- list_elem_of_In. split; [tauto|].
  intros Hn. split; [|exact Hn].
  apply HS in Hn. apply elem_of_list_to_set in Hn. exact Hn.
Qed.

Lemma sources_of_cons (n : str) (it : str * gset str)
    (items : dict (gset str)) :
  length (sources_of n (it :: items))
  = ((if bool_decide (n ∈ it.2) then 1 else 0)
     + length (sources_of n items))%nat.
Proof.
  unfold sources_of. cbn [List.filter].
  destruct (bool_decide (n ∈ it.2)); reflexivity.
Qed.

Lemma sum_indicator (K : list str) (S : gset str) :
  sum_list_with (fun n => if bool_decide (n ∈ S) then 1 else 0)%nat K
  = length (List.filter (fun n => bool_decide (n ∈ S)) K).
Proof.
  induction K as [|k K IH]; [reflexivity|].
  cbn [sum_list_with List.filter]. rewrite IH.
  destruct (bool_decide (k ∈ S)); reflexivity.
Qed.

Lemma sum_list_with_add {A} (f g : A -> nat) (l : list A) :
  sum_list_with (fun x => f x + g x)%nat l
  = (sum_list_with f l + sum_list_with g l)%nat.
Proof.
  induction l as [|x l IH]; [reflexivity|].
  cbn [sum_list_with]. rewrite IH. lia.
Qed.

Lemma sum_list_with_ext {A} (f g : A -> nat) (l : list A) :
  (forall x, x ∈ l -> f x = g x) ->
  sum_list_with f l = sum_list_with g l.
Proof.
  induction l as [|x l IH]; intros H; [reflexivity|].
  cbn [sum_list_with]. rewrite (H x) by apply list_elem_of_here.
  rewrite IH by (intros; apply H, list_elem_of_further; assumption).
  reflexivity.
Qed.

(** Counting, for every key, the entries that hold it counts every entry
    once for each of its members. *)
Lemma sources_double_count (K : list str) (items : dict (gset str)) :
  NoDup K ->
  (forall it, it ∈ items -> it.2 ⊆ list_to_set K) ->
  sum_list_with (fun n => length (sources_of n items)) K
  = sum_list_with (fun it : str * gset str => size it.2) items.
Proof.
  intros HK. induction items as [|it items IH]; intros Hsub.
  - cbn [sum_list_with]. clear. induction K as [|k K IHK]; [reflexivity|].
    cbn. exact IHK.
  - rewrite (sum_list_with_ext _
               (fun n => (if bool_decide (n ∈ it.2) then 1 else 0)
                         + length (sources_of n items))%nat)
      by (intros; apply sources_of_cons).
    rewrite sum_list_with_add, sum_indicator.
    rewrite filter_elem_length
      by (exact HK || apply Hsub, list_elem_of_here).
    rewrite IH by (intros; apply Hsub, list_elem_of_further; assumption).
    reflexivity.
Qed.

Lemma sum_dict_item_keys {V} (dflt : V) (f : V -> nat) (d : dict V) :
  NoDup (dict_keys d) ->
  sum_list_with (fun n => f (dict_item dflt n d)) (dict_keys d)
  = sum_list_with (fun it : str * V => f it.2) d.
Proof.
  intros Hnd.
  assert (H : forall l : dict V,
            (forall k v, (k, v) ∈ l -> dict_get k d = Some v) ->
            sum_list_with (fun n => f (dict_item dflt n d)) (dict_keys l)
            = sum_list_with (fun it : str * V => f it.2) l).
  { induction l as [|[k v] l IH]; intros Hl; [reflexivity|].
    unfold dict_keys in *. cbn [fmap list_fmap sum_list_with fst snd].
    rewrite IH by (intros; apply Hl, list_elem_of_further; assumption).
    unfold dict_item at 1. rewrite (Hl k v) by apply list_elem_of_here.
    reflexivity. }
  apply H. intros k v. apply dict_get_NoDup, Hnd.
Qed.

Section DegreeFacts.
Variable cfg : config.
Variable w : world.
Variable entries : list str.

Local Abbreviation a := (analyse cfg w entries).1.

Lemma outgoing_elem (n f t : str) :
  (n, f) ∈ a_filtered a ->
  t ∈ dict_item ∅ n (a_outgoing a) ->
  t ∈ dict_keys (a_filtered a) /\ t <> n.
Proof.
  intros Hn. unfold dict_item. rewrite analyse_outgoing.
  rewrite (link_pass_get _ _ _ n f) by (apply filtered_NoDup || exact Hn).
  cbn [default]. unfold id, links_of.
  destruct (content_of cfg w LinkPass f) as [content|].
  - unfold valid_targets.
    rewrite elem_of_list_to_set, list_elem_of_In, filter_In.
    rewrite andb_true_iff, dict_mem_keys, negb_true_iff, bool_decide_eq_false.
    tauto.
  - intros H. apply not_elem_of_empty in H as [].
Qed.

Lemma outgoing_subset (n : str) :
  dict_item ∅ n (a_outgoing a)
  ⊆ list_to_set (dict_keys (a_filtered a)) ∖ {[n]}.
Proof.
  intros t Ht.
  destruct (dict_get n (a_filtered a)) as [f|] eqn:Hf.
  - apply dict_get_Some_elem in Hf.
    destruct (outgoing_elem n f t Hf Ht) as [Hk Hne].
    apply elem_of_difference. split.
    + apply elem_of_list_to_set. exact Hk.
    + intros ->%elem_of_singleton. contradiction.
  - exfalso. apply dict_get_None in Hf.
    rewrite <- (keys_link_pass cfg w), <- analyse_outgoing in Hf.
    apply dict_get_None in Hf. unfold dict_item in Ht. rewrite Hf in Ht.
    apply not_elem_of_empty in Ht. exact Ht.
Qed.

Lemma keys_minus_size (n : str) :
  n ∈ dict_keys (a_filtered a) ->
  size (list_to_set (dict_keys (a_filtered a)) ∖ {[n]} : gset str)
  = (length (a_filtered a) - 1)%nat.
Proof.
  intros Hn. rewrite size_difference.
  - rewrite size_singleton, size_list_to_set by apply filtered_NoDup.
    unfold dict_keys. rewrite length_fmap. reflexivity.
  - intros x ->%elem_of_singleton. apply elem_of_list_to_set. exact Hn.
Qed.
End DegreeFacts.

(** ** Facts on ranking and limits *)

Lemma insert_desc_filter (x : row) (l : list row) (t : nat) :
  List.filter (fun r => (r_total r =? t)%nat) (insert_desc x l)
  = List.filter (fun r => (r_total r =? t)%nat) (x :: l).
Proof.
  induction l as [|y l IH]; [reflexivity|].
  cbn [insert_desc].
  destruct (Nat.ltb_spec (r_total x) (r_total y)) as [Hlt|Hge];
    [|reflexivity].
  cbn [List.filter] in *. rewrite IH.
  destruct (Nat.eqb_spec (r_total x) t) as [Hx|Hx];
    destruct (Nat.eqb_spec (r_total y) t) as [Hy|Hy];
    try reflexivity.
  lia.
Qed.

Lemma binary_round_aux_sign (sx : bool) (mx ex : Z) (lx : location) :
  sign_is sx (binary_round_aux prec emax sx mx ex lx).
Proof.
  unfold binary_round_aux.
  destruct (shr_fexp prec emax mx ex lx) as [mrs' e'].
  destruct (shr_fexp prec emax _ e' loc_Exact) as [mrs'' e''].
  destruct (shr_m mrs''); cbn; [exact I| |exact I].
  destruct (e'' <=? emax - prec); cbn; [reflexivity|exact I].
Qed.

Lemma mul_sign (x y : float) :
  sign_is false x -> sign_is false y -> sign_is false (mul x y).
Proof.
  destruct x as [sx|sx| |sx mx ex], y as [sy|sy| |sy my ey]; cbn;
    try (intros; exact I).
  intros -> ->. apply binary_round_aux_sign.
Qed.

Lemma ltb_zero_sign (x : float) : ltb (of_int 0) x = true -> sign_is false x.
Proof.
  destruct x as [sx|sx| |sx mx ex]; cbn; try (intros; exact I).
  destruct sx; [discriminate|reflexivity].
Qed.

Lemma to_int_sign (x : float) (n : Z) :
  sign_is false x -> to_int x = inr n -> 0 <= n.
Proof.
  destruct x as [sx|sx| |sx mx ex]; cbn; try discriminate.
  - intros _ [= <-]. lia.
  - intros -> [= <-]. cbn. apply Z.shiftl_nonneg. lia.
Qed.

(** The ceiling computed from a positive budget is not negative. *)
Lemma max_size_bytes_nonneg (size : option float) (cap : Z) :
  max_size_bytes_of size = inr (Some cap) -> 0 <= cap.
Proof.
  unfold max_size_bytes_of. destruct size as [x|]; [|discriminate].
  destruct (ltb (of_int 0) x) eqn:Hx; [|discriminate].
  destruct (to_int _) as [|n] eqn:Hn; [discriminate|].
  intros [= <-]. eapply to_int_sign; [|exact Hn].
  apply mul_sign; [apply mul_sign|]; try exact (ltb_zero_sign x Hx);
    vm_compute; reflexivity.
Qed.

(** A count limit, when there is one, is positive. *)
Lemma max_notes_limit_positive (top : option Z) (percent : option float)
    (num_notes : nat) (l : Z) :
  max_notes_limit_of top percent num_notes = inr (Some l) -> 0 < l.
Proof.
  unfold max_notes_limit_of.
  assert (Htop : forall l',
            match top with
            | Some n => if 0 <? n then Some n else None
            | None => None
            end = Some l' -> 0 < l').
  { intros l'. destruct top as [n|]; [|discriminate].
    destruct (Z.ltb_spec 0 n); [|discriminate]. intros [= <-]. assumption. }
  destruct (match top with Some n => _ | None => _ end) as [t|] eqn:Ht.
  - specialize (Htop t eq_refl).
    destruct percent as [p|]; [|intros [= <-]; assumption].
    destruct (_ && _); [|intros [= <-]; assumption].
    destruct (floor _) as [|c]; [discriminate|].
    destruct (Z.ltb_spec 0 c); intros [= <-]; lia.
  - destruct percent as [p|]; [|discriminate].
    destruct (_ && _); [|discriminate].
    destruct (floor _) as [|c]; [discriminate|].
    destruct (Z.ltb_spec 0 c); [|discriminate]. intros [= <-]. assumption.
Qed.

Lemma select_length_le (l : Z) (cap : option Z) (data : list row) :
  0 < l -> Z.of_nat (length (select (Some l) cap data)) <= l.
Proof.
  intros Hl. unfold select.
  destruct (select_loop_spec (Some l) cap data [] 0)
    as (taken & rest & _ & -> & Hin & _).
  cbn [app]. destruct taken as [|r taken] using rev_ind; [cbn; lia|].
  clear IHtaken. rewrite length_app in *. cbn [length] in *.
  destruct (Hin (length taken) ltac:(lia)) as [Hc _].
  destruct (Z_le_gt_dec (Z.of_nat (length taken + 1)) l); [assumption|].
  exfalso. apply Hc. exists l. split; [reflexivity|]. cbn. lia.
Qed.

Lemma select_size_le (lim : option Z) (m : Z) (data : list row) :
  0 <= m -> total_size (select lim (Some m) data) <= m.
Proof.
  intros Hm. unfold select.
  destruct (select_loop_spec lim (Some m) data [] 0)
    as (taken & rest & _ & -> & Hin & _).
  cbn [app]. destruct taken as [|r taken] using rev_ind; [cbn; lia|].
  clear IHtaken.
  destruct (Hin (length taken)) as [_ Hc];
    [rewrite length_app; cbn; lia|].
  rewrite take_ge in Hc by (rewrite length_app; cbn; lia).
  destruct (Z_le_gt_dec (total_size (taken ++ [r])) m); [assumption|].
  exfalso. apply Hc. exists m. split; [reflexivity|]. lia.
Qed.

(** ** Facts on the tag pattern *)

Lemma last_app_nonempty {A} (l1 l2 : list A) :
  l2 <> [] -> last (l1 ++ l2) = last l2.
Proof.
  intros Hne. rewrite last_app. destruct (last l2) eqn:E; [reflexivity|].
  apply last_None in E. contradiction.
Qed.

Lemma span_run_take (p : N -> bool) (s : str) :
  take (length (span_run p s)) s = span_run p s.
Proof.
  induction s as [|c s IH]; [reflexivity|].
  cbn [span_run]. destruct (p c); [|reflexivity].
  cbn [length take]. f_equal. exact IH.
Qed.

Lemma span_run_length (p : N -> bool) (s : str) :
  (length (span_run p s) <= length s)%nat.
Proof.
  induction s as [|c s IH]; [reflexivity|].
  cbn [span_run]. destruct (p c); cbn [length]; lia.
Qed.

Lemma span_run_maximal (p : N -> bool) (s : str) (c : N) :
  head (drop (length (span_run p s)) s) = Some c -> p c = false.
Proof.
  induction s as [|d s IH]; [discriminate|].
  cbn [span_run]. destruct (p d) eqn:Hd.
  - cbn [length drop]. exact IH.
  - cbn. intros [= <-]. exact Hd.
Qed.

Lemma span_run_exact (p : N -> bool) (g post : str) :
  Forall (fun c => p c = true) g ->
  (forall c, head post = Some c -> p c = false) ->
  span_run p (g ++ post) = g.
Proof.
  intros Hg Hpost. induction Hg as [|c g Hc Hg IH].
  - destruct post as [|c post]; [reflexivity|].
    cbn. rewrite (Hpost c eq_refl). reflexivity.
  - cbn [app span_run]. rewrite Hc. f_equal. exact IH.
Qed.

Lemma span_run_short (p : N -> bool) (p1 x : str) (a : N) :
  last p1 = Some a -> p a = false ->
  (length (span_run p (p1 ++ x)) < length p1)%nat.
Proof.
  induction p1 as [|c p1 IH]; [discriminate|].
  intros Hl Ha. cbn [app span_run]. destruct (p c) eqn:Hc.
  - destruct p1 as [|d p1].
    + cbn in Hl. injection Hl as ->. congruence.
    + cbn [length]. apply ->Nat.succ_lt_mono. apply IH; [exact Hl|exact Ha].
  - cbn. lia.
Qed.

Lemma scan_inv_skip (pre : str) (k : nat) (c : N) (s : str) :
  scan_inv pre (S k) (c :: s) -> scan_inv (pre ++ [c]) k s.
Proof.
  intros (Hlen & Hall & Hhd). cbn [length take drop] in *.
  apply Forall_cons in Hall as [_ Hall].
  destruct k as [|k].
  - intros a b _ Hb _. apply Hhd. exact Hb.
  - split; [lia|]. split; assumption.
Qed.

Lemma scan_inv_after_other (pre : str) (c : N) (s : str) :
  tag_char c = false -> scan_inv (pre ++ [c]) 0 s.
Proof.
  intros Hc a b Ha _ Ht. rewrite last_snoc in Ha. injection Ha as <-.
  congruence.
Qed.

Lemma scan_inv_ahead (pre : str) (k : nat) (s : str) :
  (k <= length s)%nat ->
  Forall (fun c => tag_char c = true) (take k s) ->
  (forall c, head (drop k s) = Some c -> tag_char c = false) ->
  scan_inv pre k s.
Proof.
  intros Hlen Hall Hhd. destruct k as [|k].
  - intros a b _ Hb _. apply Hhd. exact Hb.
  - split; [exact Hlen|]. split; assumption.
Qed.

Lemma scan_inv_after_run (pre : str) (c : N) (s : str) :
  scan_inv (pre ++ [c]) (length (span_run tag_char s)) s.
Proof.
  apply scan_inv_ahead.
  - apply span_run_length.
  - rewrite span_run_take. apply span_run_Forall.
  - apply span_run_maximal.
Qed.

Lemma match_tag_unfold (c : N) (s : str) :
  match_tag (c :: s)
  = if (c =? 35)%N then
      match span_run tag_char s with
      | [] => None
      | g => Some (g, S (length g))
      end
    else if tag_char c then
      Some (c :: span_run tag_char s, S (length (span_run tag_char s)))
    else None.
Proof.
  unfold match_tag. destruct (c =? 35)%N; [reflexivity|].
  cbn [span_run]. destruct (tag_char c); reflexivity.
Qed.

Lemma tag_scan_sound (g : str) (s : str) :
  forall pre k,
    scan_inv pre k s -> g ∈ findall_tags_from k s -> is_tag_run (pre ++ s) g.
Proof.
  induction s as [|c s IH]; intros pre k Hinv Hg.
  - destruct k; apply elem_of_nil in Hg as [].
  - assert (Hshift : forall k', scan_inv (pre ++ [c]) k' s ->
              g ∈ findall_tags_from k' s -> is_tag_run (pre ++ c :: s) g).
    { intros k' Hi Hk. specialize (IH (pre ++ [c]) k' Hi Hk).
      rewrite <- app_assoc in IH. exact IH. }
    cbn [findall_tags_from] in Hg. destruct k as [|k].
    2:{ apply (Hshift k); [apply scan_inv_skip, Hinv|exact Hg]. }
    rewrite match_tag_unfold in Hg.
    destruct (N.eqb_spec c 35) as [->|Hc].
    + destruct (span_run tag_char s) as [|d r] eqn:Hr.
      * apply (Hshift O); [apply scan_inv_after_other; reflexivity|exact Hg].
      * cbn [Nat.sub] in Hg. rewrite Nat.sub_0_r in Hg.
        apply elem_of_cons in Hg as [->|Hg].
        -- exists (pre ++ [35%N]), (drop (length (d :: r)) s).
           rewrite <- Hr. split.
           { rewrite <- app_assoc. cbn [app]. do 2 f_equal.
             apply span_run_app. }
           split; [rewrite Hr; discriminate|].
           split; [apply span_run_Forall|]. split.
           { intros a Ha. rewrite last_snoc in Ha. injection Ha as <-.
             reflexivity. }
           { apply span_run_maximal. }
        -- apply (Hshift (length (d :: r))); [|exact Hg].
           rewrite <- Hr. apply scan_inv_after_run.
    + destruct (tag_char c) eqn:Ht.
      * cbn [Nat.sub] in Hg. rewrite Nat.sub_0_r in Hg.
        apply elem_of_cons in Hg as [->|Hg].
        -- exists pre, (drop (length (span_run tag_char s)) s). split.
           { cbn [app]. do 2 f_equal. apply span_run_app. }
           split; [discriminate|].
           split; [constructor; [exact Ht|apply span_run_Forall]|]. split.
           { intros a Ha. destruct (tag_char a) eqn:Hta; [|reflexivity].
             rewrite <- Ht. apply (Hinv a c Ha eq_refl Hta). }
           { apply span_run_maximal. }
        -- apply (Hshift (length (span_run tag_char s)));
             [apply scan_inv_after_run|exact Hg].
      * apply (Hshift O); [apply scan_inv_after_other, Ht|exact Hg].
Qed.

Lemma tag_scan_complete (g post : str) :
  g <> [] -> Forall (fun c => tag_char c = true) g ->
  (forall b, head post = Some b -> tag_char b = false) ->
  forall (p1 pre : str) (k : nat),
    scan_inv pre k (p1 ++ g ++ post) -> (k <= length p1)%nat ->
    (forall a, last (pre ++ p1) = Some a -> tag_char a = false) ->
    g ∈ findall_tags_from k (p1 ++ g ++ post).
Proof.
  intros Hne Hall Hpost p1.
  induction p1 as [|c p1 IH]; intros pre k Hinv Hk Hlast.
  - assert (k = O) as -> by (cbn in Hk; lia).
    destruct g as [|c g]; [contradiction|].
    cbn [app findall_tags_from]. rewrite match_tag_unfold.
    apply Forall_cons in Hall as [Hc Hall].
    destruct (N.eqb_spec c 35) as [->|_]; [discriminate|].
    rewrite Hc, (span_run_exact _ g post Hall Hpost).
    apply list_elem_of_here.
  - assert (Hshift : forall k', scan_inv (pre ++ [c]) k' (p1 ++ g ++ post) ->
              (k' <= length p1)%nat ->
              g ∈ findall_tags_from k' (p1 ++ g ++ post)).
    { intros k' Hi Hk'. apply (IH (pre ++ [c]) k' Hi Hk').
      rewrite <- app_assoc. exact Hlast. }
    assert (Hrun : forall a, last (pre ++ c :: p1) = Some a ->
              p1 <> [] ->
              (length (span_run tag_char (p1 ++ g ++ post)) <= length p1)%nat).
    { intros a Ha Hp1. apply Nat.lt_le_incl.
      apply (span_run_short _ _ _ a); [|apply Hlast, Ha].
      rewrite <- Ha. symmetry.
      change (pre ++ c :: p1) with (pre ++ [c] ++ p1).
      rewrite (app_assoc pre [c] p1). apply last_app_nonempty, Hp1. }
    cbn [app findall_tags_from]. destruct k as [|k].
    2:{ apply Hshift; [apply scan_inv_skip, Hinv|cbn in Hk; lia]. }
    rewrite match_tag_unfold.
    destruct p1 as [|d p1].
    + (* the run starts right after [c] *)
      cbn [app] in *.
      assert (Hc : tag_char c = false).
      { apply Hlast. rewrite last_snoc. reflexivity. }
      destruct (N.eqb_spec c 35) as [->|_].
      * rewrite (span_run_exact _ g post Hall Hpost).
        destruct g as [|e g]; [contradiction|]. apply list_elem_of_here.
      * rewrite Hc. apply (Hshift O); [apply scan_inv_after_other, Hc|lia].
    + destruct (last (pre ++ c :: d :: p1)) as [a|] eqn:Ha.
      2:{ apply last_None in Ha. destruct pre; discriminate. }
      specialize (Hrun a eq_refl ltac:(discriminate)).
      destruct (N.eqb_spec c 35) as [->|_].
      * destruct (span_run tag_char ((d :: p1) ++ g ++ post)) as [|e r] eqn:Hr.
        -- apply (Hshift O); [apply scan_inv_after_other; reflexivity|lia].
        -- cbn [Nat.sub]. rewrite Nat.sub_0_r. apply list_elem_of_further.
           apply Hshift; [|exact Hrun].
           rewrite <- Hr. apply scan_inv_after_run.
      * destruct (tag_char c) eqn:Ht.
        -- cbn [Nat.sub]. rewrite Nat.sub_0_r. apply list_elem_of_further.
           apply Hshift; [apply scan_inv_after_run|exact Hrun].
        -- apply (Hshift O); [apply scan_inv_after_other, Ht|lia].
Qed.

(** ** Facts on the code block pattern *)

Lemma startswith_nil (s : str) : startswith s [] = true.
Proof. destruct s; reflexivity. Qed.

Lemma startswith_app_true (x y p : str) :
  startswith x p = true -> startswith (x ++ y) p = true.
Proof.
  revert x. induction p as [|a p IH]; intros x H;
    [destruct x, y; reflexivity|].
  destruct x as [|c x]; [discriminate|].
  cbn [app startswith] in *. apply andb_true_iff in H as [Ha Hx].
  rewrite Ha, (IH x Hx). reflexivity.
Qed.

Lemma startswith_app_long (x y p : str) :
  (length p <= length x)%nat -> startswith (x ++ y) p = startswith x p.
Proof.
  revert x. induction p as [|a p IH]; intros x H;
    [destruct x, y; reflexivity|].
  destruct x as [|c x]; [cbn in H; lia|].
  cbn [app startswith length] in *. rewrite IH by lia. reflexivity.
Qed.

Lemma startswith_head (c : N) (s p : str) (a : N) :
  c <> a -> startswith (c :: s) (a :: p) = false.
Proof.
  intros Hc. cbn [startswith].
  destruct (N.eqb_spec a c) as [->|_]; [contradiction|reflexivity].
Qed.

Lemma find_fence_length (s : str) (n : nat) :
  find_fence s = Some n -> (n + 3 <= length s)%nat.
Proof.
  revert n. induction s as [|c s IH]; intros n; [discriminate|].
  cbn [find_fence]. destruct (startswith (c :: s) fence) eqn:Hs.
  - intros [= <-]. apply startswith_app in Hs. rewrite Hs.
    rewrite length_app. cbn. lia.
  - destruct (find_fence s) as [m|]; [|discriminate].
    intros [= <-]. specialize (IH m eq_refl). cbn [length]. lia.
Qed.

Lemma find_fence_app (x y : str) (n : nat) :
  find_fence x = Some n -> find_fence (x ++ y) = Some n.
Proof.
  revert n. induction x as [|c x IH]; intros n; [discriminate|].
  cbn [find_fence]. destruct (startswith (c :: x) fence) eqn:Hs.
  - intros [= <-]. cbn [app find_fence].
    change (c :: x ++ y) with ((c :: x) ++ y).
    rewrite (startswith_app_true _ _ _ Hs). reflexivity.
  - destruct (find_fence x) as [m|] eqn:Hm; [|discriminate].
    intros [= <-]. cbn [app find_fence].
    change (c :: x ++ y) with ((c :: x) ++ y).
    rewrite startswith_app_long, Hs, (IH m eq_refl); [reflexivity|].
    apply find_fence_length in Hm. cbn. lia.
Qed.

Lemma find_fence_drop_None (s : str) (k : nat) :
  find_fence s = None -> find_fence (drop k s) = None.
Proof.
  revert s. induction k as [|k IH]; intros s H; [exact H|].
  destruct s as [|c s]; [reflexivity|].
  cbn [drop]. apply IH. cbn [find_fence] in H.
  destruct (startswith (c :: s) fence); [discriminate|].
  destruct (find_fence s); [discriminate|reflexivity].
Qed.

Lemma remove_code_blocks_from_app (x y : str) :
  remove_code_blocks_from (length x) (x ++ y) = remove_code_blocks_from 0 y.
Proof.
  induction x as [|c x IH]; [reflexivity|].
  cbn [length app remove_code_blocks_from]. exact IH.
Qed.

Lemma remove_code_blocks_cons (c : N) (s : str) :
  match_code_block (c :: s) = None ->
  remove_code_blocks (c :: s) = c :: remove_code_blocks s.
Proof.
  intros H. unfold remove_code_blocks. cbn [remove_code_blocks_from].
  rewrite H. reflexivity.
Qed.

Lemma match_code_block_other (c : N) (s : str) :
  c <> 96%N -> match_code_block (c :: s) = None.
Proof.
  intros Hc. unfold match_code_block, fence.
  rewrite startswith_head by exact Hc. reflexivity.
Qed.

Lemma match_code_block_unclosed (s : str) :
  find_fence (drop 3 s) = None -> match_code_block s = None.
Proof.
  intros H. unfold match_code_block. rewrite H.
  destruct (startswith s fence); reflexivity.
Qed.

Lemma remove_code_blocks_no_match (s : str) :
  (forall k, find_fence (drop (k + 3) s) = None) ->
  remove_code_blocks s = s.
Proof.
  induction s as [|c s IH]; intros H; [reflexivity|].
  rewrite remove_code_blocks_cons.
  - f_equal. apply IH. intros k. apply (H (S k)).
  - apply match_code_block_unclosed. apply (H O).
Qed.

Lemma remove_code_blocks_prefix (pre s : str) :
  Forall (fun c => c <> 96%N) pre ->
  remove_code_blocks (pre ++ s) = pre ++ remove_code_blocks s.
Proof.
  intros Hpre. induction Hpre as [|c pre Hc Hpre IH]; [reflexivity|].
  cbn [app]. rewrite remove_code_blocks_cons
    by (apply match_code_block_other, Hc).
  f_equal. exact IH.
Qed.

(** ** Scanning for links *)

Lemma findall_links_from_app (x y : str) :
  findall_links_from (length x) (x ++ y) = findall_links_from 0 y.
Proof.
  induction x as [|c x IH]; [reflexivity|].
  cbn [length app findall_links_from]. exact IH.
Qed.

Lemma match_link_other (c : N) (s : str) :
  c <> 91%N -> match_link (c :: s) = None.
Proof.
  intros Hc. unfold match_link.
  rewrite startswith_head by exact Hc. reflexivity.
Qed.

Lemma findall_links_prefix (pre s : str) :
  Forall (fun c => c <> 91%N) pre ->
  findall_links (pre ++ s) = findall_links s.
Proof.
  intros Hpre. induction Hpre as [|c pre Hc Hpre IH]; [reflexivity|].
  unfold findall_links in *. cbn [app findall_links_from].
  rewrite match_link_other by exact Hc. exact IH.
Qed.

Lemma span_run_closed (p : N -> bool) (g post : str) (c : N) :
  Forall (fun c => p c = true) g -> p c = false ->
  span_run p (g ++ c :: post) = g.
Proof.
  intros Hg Hc. induction Hg as [|d g Hd Hg IH].
  - cbn. rewrite Hc. reflexivity.
  - cbn [app span_run]. rewrite Hd, IH. reflexivity.
Qed.

Lemma match_link_here (g post : str) :
  g <> [] -> Forall (fun c => c <> 93%N) g ->
  match_link ([91%N; 91%N] ++ g ++ [93%N; 93%N] ++ post) = Some g.
Proof.
  intros Hne Hg.
  assert (Hrun : span_run not_rbracket (g ++ 93%N :: 93%N :: post) = g).
  { apply span_run_closed; [|reflexivity].
    eapply Forall_impl; [exact Hg|]. intros c Hc. unfold not_rbracket.
    destruct (N.eqb_spec c 93); [contradiction|reflexivity]. }
  unfold match_link.
  change (startswith ([91%N; 91%N] ++ g ++ [93%N; 93%N] ++ post)
            [91%N; 91%N])
    with (startswith (g ++ [93%N; 93%N] ++ post) []).
  change (drop 2 ([91%N; 91%N] ++ g ++ [93%N; 93%N] ++ post))
    with (g ++ 93%N :: 93%N :: post).
  rewrite startswith_nil. cbv zeta. rewrite Hrun, drop_app_length.
  change (startswith (93%N :: 93%N :: post) [93%N; 93%N])
    with (startswith post []).
  rewrite startswith_nil.
  destruct g as [|c g]; [contradiction|reflexivity].
Qed.

(** ** Facts on note names *)

Lemma endswith_app (f p : str) :
  endswith f p = true -> f = take (length f - length p) f ++ p.
Proof.
  unfold endswith. intros H. apply startswith_app in H.
  apply (f_equal (@rev N)) in H.
  rewrite rev_involutive, rev_app_distr, rev_involutive in H.
  revert H. generalize (rev (drop (length (rev p)) (rev f))).
  intros x ->. rewrite length_app.
  replace (length x + length p - length p)%nat with (length x) by lia.
  rewrite take_app_length. reflexivity.
Qed.

Lemma rindex_dot_none (b : str) (i : nat) (l : option nat) :
  Forall (fun c => is_dot c = false) b -> rindex_dot b i l = l.
Proof.
  intros Hb. revert i. induction Hb as [|c b Hc Hb IH]; intros i;
    [reflexivity|].
  cbn [rindex_dot]. unfold is_dot in Hc. rewrite Hc. apply IH.
Qed.

Lemma rindex_dot_last (a b : str) (i : nat) (l : option nat) :
  Forall (fun c => is_dot c = false) b ->
  rindex_dot (a ++ 46%N :: b) i l = Some (i + length a)%nat.
Proof.
  intros Hb. revert i l. induction a as [|c a IH]; intros i l.
  - cbn [app rindex_dot length]. rewrite rindex_dot_none by exact Hb.
    cbn. f_equal. lia.
  - cbn [app rindex_dot length]. rewrite IH. f_equal. lia.
Qed.

Lemma splitext_root_md (stem : str) :
  splitext_root (stem ++ dot_md)
  = if forallb is_dot stem then stem ++ dot_md else stem.
Proof.
  unfold splitext_root.
  change dot_md with (46%N :: lit "md").
  rewrite (rindex_dot_last stem (lit "md") 0 None)
    by (repeat constructor).
  cbn [Nat.add]. rewrite take_app_length. reflexivity.
Qed.

(** The entry of [key] in a dictionary built from a list of pairs is the
    last pair of the list with that key. *)
Lemma dict_of_list_get {A V} (g : A -> str * V) (l : list A) (k : str) :
  dict_get k (dict_of_list (List.map g l))
  = (fun x => (g x).2)
      <$> last (List.filter (fun x => bool_decide ((g x).1 = k)) l).
Proof.
  unfold dict_of_list.
  assert (H : forall d,
            dict_get k (foldl (fun d kv => dict_set kv.1 kv.2 d) d
                          (List.map g l))
            = match last (List.filter
                            (fun x => bool_decide ((g x).1 = k)) l) with
              | Some x => Some (g x).2
              | None => dict_get k d
              end).
  { induction l as [|x l IH]; intros d; [reflexivity|].
    cbn [List.map foldl List.filter]. rewrite IH, dict_get_set.
    destruct (decide (k = (g x).1)) as [->|Hne].
    - rewrite bool_decide_eq_true_2 by reflexivity. rewrite last_cons.
      destruct (last _); reflexivity.
    - rewrite bool_decide_eq_false_2 by congruence. reflexivity. }
  rewrite H. destruct (last _); reflexivity.
Qed.

(** ** Facts on reading *)

Lemma replace_separators (raw : str) :
  let c := replace_char 8233 10 (replace_char 8232 10 raw) in
  length c = length raw
  /\ Forall (fun x => is_separator x = false) c
  /\ (Forall (fun x => is_separator x = false) raw -> c = raw).
Proof.
  cbv zeta. unfold replace_char. rewrite !length_map. split; [reflexivity|].
  split.
  - induction raw as [|x raw IH]; [constructor|].
    cbn [List.map]. constructor; [|exact IH]. unfold is_separator.
    destruct (N.eqb_spec x 8232) as [->|H1]; [reflexivity|].
    destruct (N.eqb_spec x 8233) as [->|H2]; [reflexivity|].
    apply N.eqb_neq in H1, H2. rewrite H1, H2. reflexivity.
  - induction 1 as [|x raw Hx _ IH]; [reflexivity|].
    cbn [List.map]. rewrite IH. unfold is_separator in Hx.
    apply orb_false_iff in Hx as [H1 H2]. rewrite H1, H2. reflexivity.
Qed.

(** ** Facts on the events of a run *)

Lemma emit_Forall (P : event -> Prop) (t : list event) :
  Forall P t -> Forall P (emit t).2.
Proof. intros H. exact H. Qed.

Create HintDb frame.

Section Frame.
Variable cfg : config.
Variable w : world.
Variable P : event -> Prop.
Hypothesis P_print : verbose cfg = true -> forall l m, P (Print l m).

Lemma log_frame (l : level) (m : message) : Forall P (log l m (verbose cfg)).2.
Proof.
  unfold log. destruct (verbose cfg); cbn; repeat constructor.
  apply P_print. reflexivity.
Qed.

Lemma safe_read_file_frame (ps : pass) (p : str) :
  Forall P (safe_read_file w ps p (verbose cfg)).2.
Proof.
  unfold safe_read_file. destruct (read_text w ps p); [apply wret_Forall|].
  apply wbind_Forall; [apply log_frame|intros; apply wret_Forall].
Qed.

Hint Resolve wret_Forall log_frame safe_read_file_frame : frame.

Ltac frame :=
  repeat first
    [ solve [auto with frame]
    | apply wbind_Forall; [|intros]
    | apply for_each_snd_Forall; intros
    | match goal with
      | |- Forall _ (match ?x with _ => _ end).2 => destruct x
      | |- Forall _ (if ?x then _ else _).2 => destruct x
      end ].

Lemma analyse_frame (entries : list str) : Forall P (analyse cfg w entries).2.
Proof.
  unfold analyse, tag_pass, tag_step, link_pass, link_step, size_pass,
    size_step.
  frame.
Qed.

Lemma report_dry_run_frame (sel : list row) :
  Forall P (report_dry_run cfg sel).2.
Proof. unfold report_dry_run. frame. Qed.

Lemma write_csv_frame (data : list row) :
  (dry_run cfg = false -> no_csv cfg = false ->
   P (OpenW (output_csv cfg))
   /\ (open_w_ok w (output_csv cfg) = true ->
       P (CsvHeader (output_csv cfg) csv_header)
       /\ forall r, P (CsvRow (output_csv cfg) r))) ->
  Forall P (write_csv cfg w data).2.
Proof.
  intros H. unfold write_csv.
  destruct (no_csv cfg), (dry_run cfg); cbn [negb andb]; try apply log_frame.
  destruct (H eq_refl eq_refl) as [Hopen Hrows].
  apply wbind_Forall; [apply log_frame|intros _].
  apply wbind_Forall; [apply emit_Forall; repeat constructor; exact Hopen|].
  intros _. destruct (open_w_ok w (output_csv cfg)); [|apply log_frame].
  destruct (Hrows eq_refl) as [Hh Hr].
  apply wbind_Forall; [|intros _; apply log_frame].
  apply emit_Forall. constructor; [exact Hh|].
  apply Forall_forall. intros e He.
  apply list_elem_of_In, in_map_iff in He as (r & <- & _).
  apply Hr.
Qed.

Lemma copy_phase_frame (sel : list row) :
  (forall dest, copy_dest cfg = Some dest ->
     (os_exists w dest = false -> P (Makedirs dest))
     /\ forall filename,
          P (CopyFile (path_join (input_dir cfg) filename)
               (path_join dest filename))) ->
  Forall P (copy_phase cfg w sel).2.
Proof.
  intros H. unfold copy_phase.
  destruct (copy_dest cfg) as [dest|]; [|apply wret_Forall].
  destruct (H dest eq_refl) as [Hmk Hcp].
  destruct (nonempty sel); [|apply wret_Forall].
  apply wbind_Forall; [apply log_frame|intros _].
  apply wbind_Forall.
  - destruct (os_exists w dest); cbn [negb]; [apply wret_Forall|].
    apply wbind_Forall;
      [apply emit_Forall; repeat constructor; apply Hmk; reflexivity|].
    intros _. destruct (makedirs_ok w dest); frame.
  - intros _. apply for_each_snd_Forall. intros item u.
    unfold copy_step, safe_copy_file.
    apply wbind_Forall; [|intros ok; destruct ok; apply log_frame].
    apply wbind_Forall;
      [apply emit_Forall; repeat constructor; apply Hcp|intros _].
    destruct (copyfile_ok w _ _); frame.
Qed.

Lemma combine_phase_frame (sel : list row) :
  (forall out_md, combine_md cfg = Some out_md ->
     P (OpenW out_md)
     /\ (open_w_ok w out_md = true -> forall text, P (Write out_md text))) ->
  Forall P (combine_phase cfg w sel).2.
Proof.
  intros H. unfold combine_phase.
  destruct (combine_md cfg) as [out_md|]; [|apply wret_Forall].
  destruct (H out_md eq_refl) as [Hopen Hwrite].
  destruct (nonempty sel); [|apply log_frame].
  apply wbind_Forall; [apply log_frame|intros _].
  apply wbind_Forall; [apply emit_Forall; repeat constructor; exact Hopen|].
  intros _. destruct (open_w_ok w out_md); [|apply log_frame].
  apply wbind_Forall; [|intros _; apply log_frame].
  apply for_each_snd_Forall. intros item u. unfold combine_step.
  apply wbind_Forall; [apply safe_read_file_frame|].
  intros [content|]; [|apply log_frame].
  apply wbind_Forall;
    [apply emit_Forall; repeat constructor; apply Hwrite; reflexivity|].
  intros _. destruct (_ <? _);
    [apply emit_Forall; repeat constructor; apply Hwrite; reflexivity
    |apply wret_Forall].
Qed.

Lemma selected_frame (sel : list row) :
  Forall P (if nonempty sel
            then log INFO (MSelected (length sel)) (verbose cfg)
            else log INFO MNoneSelected (verbose cfg)).2.
Proof. destruct (nonempty sel); apply log_frame. Qed.
End Frame.

Lemma allowed_print (cfg : config) (w : world) :
  verbose cfg = true -> forall l m, allowed cfg w (Print l m).
Proof. intros Hv l m. exact Hv. Qed.

Lemma copies_app (t1 t2 : list event) :
  copies (t1 ++ t2) = copies t1 ++ copies t2.
Proof. unfold copies. apply omap_app. Qed.

Lemma copies_not_copy (t : list event) : Forall not_copy t -> copies t = [].
Proof.
  induction 1 as [|e t He _ IH]; [reflexivity|].
  destruct e; try contradiction; exact IH.
Qed.

Lemma copies_log (l : level) (m : message) (v : bool) :
  copies (log l m v).2 = [].
Proof. destruct v; reflexivity. Qed.

Lemma copy_loop_copies (cfg : config) (w : world) (dest : str) (n i : nat)
    (sel : list row) (u : unit) :
  copies (for_each (copy_step cfg w dest n) (enumerate i sel) u).2
  = List.map (fun r => (path_join (input_dir cfg) (r_filename r),
                        path_join dest (r_filename r))) sel.
Proof.
  revert i u. induction sel as [|r sel IH]; intros i u; [reflexivity|].
  cbn [enumerate for_each List.map]. rewrite wbind_snd, copies_app, IH.
  unfold copy_step at 1, safe_copy_file.
  rewrite !wbind_snd, !copies_app. cbn [emit snd fst copies omap list_omap].
  cbn [app]. f_equal.
  assert (Hl : forall m b,
            copies (if b : bool then wret true
                    else log ERROR m (verbose cfg) ;;; wret false).2 = []).
  { intros m []; [reflexivity|]. rewrite wbind_snd, copies_app, copies_log.
    reflexivity. }
  rewrite Hl. cbn [app].
  destruct (wbind _ _).1; rewrite copies_log; reflexivity.
Qed.

Lemma copies_mutates (t : list event) :
  Forall (fun e => mutates e = false) t -> copies t = [].
Proof.
  induction 1 as [|e t He _ IH]; [reflexivity|].
  destruct e; try discriminate; exact IH.
Qed.

Lemma not_copy_print (b : Prop) : b -> forall l m, not_copy (Print l m).
Proof. intros _ l m. exact I. Qed.

Lemma copy_phase_copies (cfg : config) (w : world) (sel : list row) :
  copies (copy_phase cfg w sel).2
  = match copy_dest cfg with
    | Some dest =>
        List.map (fun r => (path_join (input_dir cfg) (r_filename r),
                            path_join dest (r_filename r))) sel
    | None => []
    end.
Proof.
  unfold copy_phase. destruct (copy_dest cfg) as [dest|]; [|reflexivity].
  destruct sel as [|r sel]; [reflexivity|]. cbn [nonempty].
  rewrite !wbind_snd, !copies_app, copies_log, copy_loop_copies.
  cbn [app].
  replace (copies _) with (@nil (str * str)); [reflexivity|].
  destruct (os_exists w dest); [reflexivity|]. cbn [negb].
  rewrite wbind_snd, copies_app.
  destruct (makedirs_ok w dest); [reflexivity|].
  rewrite copies_log. reflexivity.
Qed.

Lemma export_copies (cfg : config) (w : world) (data sel : list row) :
  (export cfg w data).1 = inr sel ->
  copies (export cfg w data).2
  = match copy_dest cfg with
    | Some dest =>
        if dry_run cfg then []
        else List.map (fun r => (path_join (input_dir cfg) (r_filename r),
                                 path_join dest (r_filename r))) sel
    | None => []
    end.
Proof.
  intros Hs. rewrite export_fst in Hs. unfold export.
  rewrite wbind_snd, copies_app.
  rewrite (copies_not_copy (write_csv cfg w data).2)
    by (apply write_csv_frame; [apply not_copy_print|intros; cbn; tauto]).
  destruct (max_notes_limit_of _ _ _) as [|lim]; [discriminate|].
  destruct (max_size_bytes_of _) as [|cap]; [discriminate|].
  injection Hs as <-. rewrite wbind_snd, copies_app.
  rewrite (copies_not_copy _ (selected_frame cfg not_copy
                                (not_copy_print _) _)).
  cbn [app]. destruct (dry_run cfg).
  - rewrite wbind_snd, copies_app.
    rewrite (copies_not_copy _ (report_dry_run_frame cfg not_copy
                                  (not_copy_print _) _)).
    destruct (copy_dest cfg); reflexivity.
  - rewrite !wbind_snd, !copies_app, copy_phase_copies, copies_log.
    rewrite (copies_not_copy (combine_phase cfg w _).2)
      by (apply combine_phase_frame;
          [apply not_copy_print|intros; cbn; tauto]).
    cbn [wret snd]. rewrite !app_nil_r. reflexivity.
Qed.

Lemma limit_exn (top : option Z) (percent : option float) (n : nat)
    (e : exn) :
  max_notes_limit_of top percent n = inl e ->
  e <> OSError /\ percent <> None.
Proof.
  unfold max_notes_limit_of. destruct percent as [p|]; [|discriminate].
  destruct (_ && _); [|discriminate].
  destruct (mul _ _); cbn; try discriminate; intros [= <-];
    split; discriminate.
Qed.

Lemma size_exn (size : option float) (e : exn) :
  max_size_bytes_of size = inl e -> e <> OSError /\ size <> None.
Proof.
  unfold max_size_bytes_of. destruct size as [x|]; [|discriminate].
  destruct (ltb _ _); [|discriminate].
  destruct (mul _ _); cbn; try discriminate; intros [= <-];
    split; discriminate.
Qed.

Lemma csv_or_print_mutates (cfg : config) (t : list event) :
  Forall (fun e => mutates e = false) t -> Forall (csv_or_print cfg) t.
Proof.
  intros Ht. eapply Forall_impl; [exact Ht|].
  intros [] H; try discriminate. exact I.
Qed.

(** ** Facts on the tag filter and the records *)

Lemma safe_read_file_fst (w : world) (ps : pass) (p : str) (v : bool) :
  (safe_read_file w ps p v).1
  = (fun c => replace_char 8233 10 (replace_char 8232 10 c))
      <$> read_text w ps p.
Proof. unfold safe_read_file. destruct (read_text w ps p); reflexivity. Qed.

Lemma tags_of_input_dir (cfg cfg' : config) (w : world) (f : str) :
  input_dir cfg = input_dir cfg' -> tags_of cfg w f = tags_of cfg' w f.
Proof.
  intros H. unfold tags_of, content_of.
  rewrite !safe_read_file_fst, H. reflexivity.
Qed.

Lemma tag_pass_input_dir (cfg cfg' : config) (w : world) (notes : dict str) :
  input_dir cfg = input_dir cfg' ->
  (tag_pass cfg w notes).1 = (tag_pass cfg' w notes).1.
Proof.
  intros H. unfold tag_pass. rewrite !for_each_fst. generalize (@nil (str * gset str)).
  induction notes as [|item notes IH]; intros d; [reflexivity|].
  cbn [foldl]. rewrite !tag_step_fst, (tags_of_input_dir cfg cfg' w _ H).
  apply IH.
Qed.

Lemma filter_sublist_impl {A} (p q : A -> bool) (l : list A) :
  (forall x, p x = true -> q x = true) ->
  sublist (List.filter p l) (List.filter q l).
Proof.
  intros H. induction l as [|x l IH]; [constructor|].
  cbn [List.filter]. destruct (p x) eqn:Hp.
  - rewrite (H x Hp). apply sublist_skip, IH.
  - destruct (q x); [apply sublist_cons|]; exact IH.
Qed.

Lemma note_passes_filter_mono (cfg cfg' : config)
    (note_tags : dict (gset str)) (n : str) :
  select_tags cfg ⊆ select_tags cfg' ->
  ignore_tags cfg ⊆ ignore_tags cfg' ->
  note_passes_filter cfg' note_tags n = true ->
  note_passes_filter cfg note_tags n = true.
Proof.
  intros Hs Hi. rewrite !note_passes_filter_spec. intros [Hsel Hign]. split.
  - intros Hne. transitivity (select_tags cfg'); [exact Hs|].
    apply Hsel. intros He. apply Hne. rewrite He in Hs.
    apply leibniz_equiv, equiv_empty, Hs.
  - intros Hne t Ht Hin. apply (Hign ltac:(intros He; apply Hne;
      rewrite He in Hi; apply leibniz_equiv, equiv_empty, Hi) t Ht).
    apply Hi, Hin.
Qed.

Lemma notes_elem (md_files : list str) (n f : str) :
  (n, f) ∈ notes_of md_files -> n = splitext_root f /\ f ∈ md_files.
Proof.
  intros H. unfold notes_of in H.
  apply dict_get_NoDup in H; [|apply dict_of_list_NoDup].
  rewrite (dict_of_list_get (fun f => (splitext_root f, f))) in H.
  cbn [fst snd] in H.
  destruct (last _) as [f'|] eqn:Hl; [|discriminate]. injection H as ->.
  apply last_Some_elem_of, list_elem_of_In, filter_In in Hl as [Hin Hn].
  apply bool_decide_eq_true in Hn. split; [symmetry; exact Hn|].
  apply list_elem_of_In, Hin.
Qed.

Lemma notes_values_NoDup (md_files : list str) :
  NoDup (notes_of md_files).*2.
Proof.
  apply (NoDup_fmap_1 splitext_root).
  replace (splitext_root <$> (notes_of md_files).*2)
    with (dict_keys (notes_of md_files)); [apply dict_of_list_NoDup|].
  unfold dict_keys. rewrite <- list_fmap_compose.
  apply Forall_fmap_ext, Forall_forall. intros [n f] H. cbn.
  apply notes_elem in H as [-> _]. reflexivity.
Qed.

Section RecordFacts.
Variable cfg : config.
Variable w : world.
Variable entries : list str.

Local Abbreviation a := (analyse cfg w entries).1.

Lemma filtered_is_filter :
  a_filtered a
  = List.filter (fun item => dict_mem item.1 (a_note_tags a)
                             && note_passes_filter cfg (a_note_tags a) item.1)
      (a_notes a).
Proof.
  rewrite analyse_filtered. apply filtered_notes_of_filter, notes_NoDup.
Qed.

Lemma filtered_sublist_notes : sublist (a_filtered a) (a_notes a).
Proof.
  rewrite filtered_is_filter. generalize (a_notes a). intros l.
  induction l as [|x l IH]; [constructor|].
  cbn [List.filter]. destruct (_ && _); [apply sublist_skip|apply sublist_cons];
    exact IH.
Qed.

Lemma record_of_filename (out : dict (gset str)) (inc : dict nat)
    (item : str * str) (r : row) :
  record_of cfg w out inc item = Some r ->
  r_filename r = item.2
  /\ r_total r = (r_out r + r_in r)%nat
  /\ os_isfile w (path_join (input_dir cfg) item.2) = true.
Proof.
  unfold record_of. destruct (os_isfile w _); [|discriminate].
  intros [= <-]. cbn. auto.
Qed.

Lemma record_filenames_sublist (out : dict (gset str)) (inc : dict nat)
    (l : dict str) :
  sublist (r_filename <$> omap (record_of cfg w out inc) l) l.*2.
Proof.
  induction l as [|item l IH]; [constructor|].
  cbn [omap list_omap fmap list_fmap].
  destruct (record_of cfg w out inc item) as [r|] eqn:Hr.
  - apply record_of_filename in Hr as [<- _]. cbn [fmap list_fmap].
    apply sublist_skip, IH.
  - apply sublist_cons, IH.
Qed.
End RecordFacts.

(** ** Examples *)

Example findall_links_ex :
  findall_links (lit "see [[ A ]] and [[B]] [[]] [[[C]] [[x]y]] [[D]")
  = [lit " A "; lit "B"; lit "[C"].
Proof. vm_compute. reflexivity. Qed.

Example remove_code_blocks_ex :
  remove_code_blocks (lit "a```b``c```d````e") = lit "ad````e".
Proof. vm_compute. reflexivity. Qed.

Example findall_tags_ex :
  findall_tags_from 0 (lit "#todo done ##x-y_z, #") = [lit "todo"; lit "done"; lit "x-y_z"].
Proof. vm_compute. reflexivity. Qed.

Example strip_ex : strip (lit "  a b 	") = lit "a b".
Proof. vm_compute. reflexivity. Qed.

Example splitext_ex :
  splitext_root (lit "a.b.md") = lit "a.b" /\ splitext_root (lit ".md") = lit ".md".
Proof. vm_compute. auto. Qed.

(** * The claims *)

(** ** The link graph *)

(** C1. For every filtered note [n], the in-degree the script computes is the
    number of filtered notes whose outbound set holds [n], for every
    directory content and every configuration. *)
Theorem C1_in_degree_counts_sources (cfg : config) (w : world)
    (entries : list str) (n : str) :
  let a := (analyse cfg w entries).1 in
  n ∈ dict_keys (a_filtered a) ->
  dict_get n (a_incoming a)
  = Some (size (filter (fun m => n ∈ dict_item ∅ m (a_outgoing a))
                       (list_to_set (dict_keys (a_filtered a)) : gset str))).
Proof.
  intros a Hn. subst a.
  rewrite analyse_incoming.
  rewrite count_incoming_get by (apply filtered_NoDup || exact Hn).
  f_equal. apply sources_of_size.
  - rewrite analyse_outgoing, keys_link_pass. apply filtered_NoDup.
  - rewrite analyse_outgoing. apply keys_link_pass.
Qed.

Lemma C1_in_degree_counts_sources_witness :
  lit "A" ∈ dict_keys (a_filtered (analyse vault_cfg (vault [] []) vault_entries).1)
  /\ dict_get (lit "A")
       (a_incoming (analyse vault_cfg (vault [] []) vault_entries).1)
     = Some 1%nat.
Proof.
  assert (H : lit "A" ∈ dict_keys
                (a_filtered (analyse vault_cfg (vault [] []) vault_entries).1))
    by (apply list_elem_of_In; vm_compute; auto).
  split; [exact H|].
  rewrite (C1_in_degree_counts_sources vault_cfg (vault [] []) vault_entries
             (lit "A") H).
  vm_compute. reflexivity.
Defined.



(** In the vault, note A links to B twice, to C with spaces around the
    name, to itself and to a note that does not exist: its outbound set
    is {B, C}. *)
Example outbound_of_A :
  dict_get (lit "A")
    (a_outgoing (analyse vault_cfg (vault [] []) vault_entries).1)
  = Some ({[lit "B"; lit "C"]} : gset str).
Proof. vm_compute. reflexivity. Qed.

(** ** Selection under a size ceiling *)

(** C3. With a size ceiling, the selection is a prefix of the ranked list;
    every included note kept the cumulative size at or below the ceiling;
    the walk stops at the first note that would push the cumulative size
    strictly above the ceiling (or, with a count limit, once the count is
    reached), and nothing after that note is included, even a note that
    would fit.  For ranked sizes of 10, 20 and 5 MB and a budget of 25 MB
    the selection is the first note alone. *)
Theorem C3_size_ceiling_stops_selection (lim : option Z) (cap : Z)
    (rows : list row) :
  let sel := select lim (Some cap) rows in
  (exists rest,
     rows = sel ++ rest
     /\ (forall k, (k < length sel)%nat -> total_size (take (S k) sel) <= cap)
     /\ (forall r rest', rest = r :: rest' ->
           count_reached lim (length sel)
           \/ cap < total_size sel + r_size r))
  /\ max_size_bytes_of (Some (of_int 25)) = inr (Some (25 * 1024 * 1024))
  /\ (forall r1 r2 r3,
        r_size r1 = 10 * 1024 * 1024 -> r_size r2 = 20 * 1024 * 1024 ->
        r_size r3 = 5 * 1024 * 1024 ->
        select None (Some (25 * 1024 * 1024)) [r1; r2; r3] = [r1]).
Proof.
  intros sel. split; [|split].
  - destruct (select_loop_spec lim (Some cap) rows [] 0)
      as (taken & rest & Hrows & Hsel & Hin & Hout).
    assert (Hs : sel = taken) by exact Hsel. rewrite Hs.
    exists rest. split; [exact Hrows|]. split.
    + intros k Hk. destruct (Hin k Hk) as [_ Hc].
      destruct (Z_le_gt_dec (total_size (take (S k) taken)) cap) as [|Hgt];
        [assumption|].
      exfalso. apply Hc. exists cap. split; [reflexivity|]. lia.
    + intros r rest' Hr.
      destruct (Hout r rest' Hr) as [Hl|(m & [= <-] & Hm)];
        [left; exact Hl|right; lia].
  - vm_compute. reflexivity.
  - intros r1 r2 r3 H1 H2 H3. unfold select. cbn [select_loop length].
    rewrite H1. cbn [Z.add Z.ltb Z.compare Pos.compare Pos.compare_cont
                     Z.mul Pos.mul Pos.add].
    change (25 * 1024 * 1024 <? 0 + 10 * 1024 * 1024) with false.
    cbn iota. rewrite H2.
    change (25 * 1024 * 1024 <? 0 + 10 * 1024 * 1024 + 20 * 1024 * 1024)
      with true.
    reflexivity.
Qed.

(** ** The count derived from the percentage *)




(** The product is a product of floats: 58 percent of 50 records gives 28,
    as [0.58 * 50] is 28.999999999999996. *)
Example percent_rounding_example :
  max_notes_limit_of None (Some (of_int 58)) 50 = inr (Some 28).
Proof. vm_compute. reflexivity. Qed.

(** ** The records *)



(** ** The tag filter *)

(** C6. A note of the directory is in the filtered set exactly when the tag
    index has an entry for it, its tags include every select tag when there
    are select tags, and none of its tags is an ignore tag when there are
    ignore tags.  The tag index has an entry for the note exactly when its
    content was read in the extraction pass, so a note that could not be
    read is excluded. *)
Theorem C6_tag_filter (cfg : config) (w : world) (entries : list str)
    (n f : str) :
  let a := (analyse cfg w entries).1 in
  (n, f) ∈ a_notes a ->
  (dict_get n (a_note_tags a)
   = ((fun c => extract_tags_from_content (remove_code_blocks c))
        <$> content_of cfg w TagPass f))
  /\ (n ∈ dict_keys (a_filtered a)
      <-> exists tags,
            dict_get n (a_note_tags a) = Some tags
            /\ (select_tags cfg ≠ ∅ -> select_tags cfg ⊆ tags)
            /\ (ignore_tags cfg ≠ ∅ -> tags ## ignore_tags cfg))
  /\ (content_of cfg w TagPass f = None -> n ∉ dict_keys (a_filtered a)).
Proof.
  intros a Hn. subst a.
  pose proof (notes_NoDup cfg w entries) as Hnd.
  assert (Htags : dict_get n (a_note_tags (analyse cfg w entries).1)
                  = tags_of cfg w f).
  { rewrite analyse_note_tags, tag_pass_get by exact Hnd.
    rewrite (dict_get_NoDup n f) by assumption. reflexivity. }
  assert (Hfilt : n ∈ dict_keys (a_filtered (analyse cfg w entries).1)
                  <-> exists tags,
                        dict_get n (a_note_tags (analyse cfg w entries).1)
                        = Some tags
                        /\ (select_tags cfg ≠ ∅ -> select_tags cfg ⊆ tags)
                        /\ (ignore_tags cfg ≠ ∅ -> tags ## ignore_tags cfg)).
  { rewrite analyse_filtered, filtered_notes_of_filter by exact Hnd.
    unfold dict_keys. rewrite list_elem_of_fmap. split.
    - intros ([n' f'] & -> & [Hin Hc]%list_elem_of_In%filter_In).
      cbn [fst] in *. apply andb_true_iff in Hc as [Hm Hp].
      apply dict_mem_keys, dict_get_is_Some in Hm as [tags Htg].
      apply note_passes_filter_spec in Hp. rewrite Htg in Hp.
      exists tags. split; [exact Htg|exact Hp].
    - intros (tags & Htg & Hsel & Hign). exists (n, f). split; [reflexivity|].
      apply list_elem_of_In, filter_In. split; [apply list_elem_of_In, Hn|].
      cbn [fst]. apply andb_true_iff. split.
      + apply dict_mem_keys, dict_get_is_Some. rewrite Htg. eauto.
      + apply note_passes_filter_spec. rewrite Htg. split; assumption. }
  split; [exact Htags|]. split; [exact Hfilt|].
  intros Hc Hin. apply Hfilt in Hin as (tags & Htg & _).
  rewrite Htags in Htg. unfold tags_of in Htg. rewrite Hc in Htg.
  discriminate.
Qed.

Lemma C6_tag_filter_witness :
  (lit "D", lit "D.md")
    ∈ a_notes (analyse vault_cfg (vault [] []) vault_entries).1
  /\ (lit "D" ∉ dict_keys
        (a_filtered (analyse vault_cfg (vault [] []) vault_entries).1))
  /\ ~ (exists tags,
          dict_get (lit "D")
            (a_note_tags (analyse vault_cfg (vault [] []) vault_entries).1)
          = Some tags
          /\ (select_tags vault_cfg ≠ ∅ -> select_tags vault_cfg ⊆ tags)
          /\ (ignore_tags vault_cfg ≠ ∅ -> tags ## ignore_tags vault_cfg)).
Proof.
  assert (H : (lit "D", lit "D.md")
                ∈ a_notes (analyse vault_cfg (vault [] []) vault_entries).1)
    by (apply list_elem_of_In; vm_compute; auto).
  assert (Hout : lit "D" ∉ dict_keys
            (a_filtered (analyse vault_cfg (vault [] []) vault_entries).1)).
  { intros Hin%list_elem_of_In. vm_compute in Hin.
    repeat (destruct Hin as [Hin|Hin]; [discriminate|]). exact Hin. }
  split; [exact H|]. split; [exact Hout|].
  intros Hex. apply Hout.
  apply (C6_tag_filter vault_cfg (vault [] []) vault_entries
           (lit "D") (lit "D.md") H).
  exact Hex.
Defined.

(** ** Selection by count *)

(** C7, counterexample. With top-N 0 there is no limit and both notes are
    selected; with top-N 1 only the first is: raising top-N from 0 to 1
    removes the second note. *)
Lemma C7_counterexample : ~ C7_as_stated two_rows 0 1.
Proof.
  intros H.
  specialize (H None (Some 1) eq_refl eq_refl ltac:(lia)
                {| r_filename := lit "B.md"; r_out := 1; r_in := 0;
                   r_total := 1; r_size := 10 |}).
  assert (Hin : {| r_filename := lit "B.md"; r_out := 1; r_in := 0;
                   r_total := 1; r_size := 10 |}
                ∈ select None None two_rows).
  { rewrite select_unconstrained. apply list_elem_of_further, list_elem_of_here. }
  apply H, list_elem_of_In in Hin. vm_compute in Hin.
  destruct Hin as [Hin|[]]. discriminate.
Qed.

(** C7, amended. For every ranked list and top-N values [n1 <= n2], with no
    other constraint, the selection under [n1] is a prefix of the selection
    under [n2], unless [n1 <= 0 < n2]: then [n1] sets no limit while [n2]
    does. *)
Theorem C7_top_n_monotone (data : list row) (n1 n2 : Z)
    (lim1 lim2 : option Z) :
  max_notes_limit_of (Some n1) None (length data) = inr lim1 ->
  max_notes_limit_of (Some n2) None (length data) = inr lim2 ->
  n1 <= n2 -> ~ (n1 <= 0 /\ 0 < n2) ->
  select lim1 None data `prefix_of` select lim2 None data.
Proof.
  unfold max_notes_limit_of. intros [= <-] [= <-] Hle Hex.
  destruct (Z.ltb_spec 0 n1) as [H1|H1], (Z.ltb_spec 0 n2) as [H2|H2];
    try lia.
  - rewrite !select_count.
    replace (take (Z.to_nat n1) data)
      with (take (Z.to_nat n1) (take (Z.to_nat n2) data))
      by (rewrite take_take; f_equal; lia).
    apply prefix_take.
  - rewrite select_unconstrained. reflexivity.
Qed.

Lemma C7_top_n_monotone_witness :
  max_notes_limit_of (Some 1) None (length two_rows) = inr (Some 1)
  /\ max_notes_limit_of (Some 2) None (length two_rows) = inr (Some 2)
  /\ 1 <= 2 /\ ~ (1 <= 0 /\ 0 < 2)
  /\ select (Some 1) None two_rows `prefix_of` select (Some 2) None two_rows.
Proof.
  assert (H1 : max_notes_limit_of (Some 1) None (length two_rows)
               = inr (Some 1)) by reflexivity.
  assert (H2 : max_notes_limit_of (Some 2) None (length two_rows)
               = inr (Some 2)) by reflexivity.
  assert (H3 : 1 <= 2) by lia.
  assert (H4 : ~ (1 <= 0 /\ 0 < 2)) by lia.
  split; [exact H1|]. split; [exact H2|]. split; [exact H3|].
  split; [exact H4|].
  exact (C7_top_n_monotone two_rows 1 2 (Some 1) (Some 2) H1 H2 H3 H4).
Defined.

(** ** Dry run *)




(** ** The combined file *)




(** ** Options out of range *)

(** C10. A top-N that is zero or negative sets no count limit; a
    top-percent that is at most 0 or above 100 derives no count limit; a
    size budget that is at most 0 sets no size ceiling; and without limit
    every ranked note is selected. *)
Theorem C10_out_of_range_options_ignored (n : Z) (p x : float)
    (top : option Z) (percent : option float) (num_notes : nat)
    (rows : list row) :
  n <= 0 ->
  leb p (of_int 0) = true \/ ltb (of_int 100) p = true ->
  leb x (of_int 0) = true ->
  max_notes_limit_of (Some n) percent num_notes
  = max_notes_limit_of None percent num_notes
  /\ max_notes_limit_of (Some n) None num_notes = inr None
  /\ max_notes_limit_of top (Some p) num_notes
     = max_notes_limit_of top None num_notes
  /\ max_size_bytes_of (Some x) = inr None
  /\ select None None rows = rows.
Proof.
  intros Hn Hp Hx.
  assert (Hn' : (0 <? n) = false) by (apply Z.ltb_ge; exact Hn).
  split_and!.
  - unfold max_notes_limit_of. rewrite Hn'. reflexivity.
  - unfold max_notes_limit_of. rewrite Hn'. reflexivity.
  - unfold max_notes_limit_of.
    assert (Hr : ltb (of_int 0) p && leb p (of_int 100) = false).
    { destruct Hp as [Hp|Hp].
      - rewrite (leb_ltb_false _ _ Hp). reflexivity.
      - rewrite (ltb_leb_false _ _ Hp). apply andb_false_r. }
    rewrite Hr. reflexivity.
  - unfold max_size_bytes_of. rewrite (leb_ltb_false _ _ Hx). reflexivity.
  - apply select_unconstrained.
Qed.

Lemma C10_out_of_range_options_ignored_witness :
  0 <= 0
  /\ (leb (of_int 150) (of_int 0) = true \/ ltb (of_int 100) (of_int 150) = true)
  /\ leb (of_int (-3)) (of_int 0) = true
  /\ max_notes_limit_of (Some 0) (Some (of_int 50)) 4
     = max_notes_limit_of None (Some (of_int 50)) 4
  /\ max_notes_limit_of (Some 0) None 4 = inr None
  /\ max_notes_limit_of (Some 2) (Some (of_int 150)) 4
     = max_notes_limit_of (Some 2) None 4
  /\ max_size_bytes_of (Some (of_int (-3))) = inr None
  /\ select None None
       (a_data (analyse vault_cfg (vault [] []) vault_entries).1)
     = a_data (analyse vault_cfg (vault [] []) vault_entries).1.
Proof.
  assert (H1 : 0 <= 0) by lia.
  assert (H2 : leb (of_int 150) (of_int 0) = true
               \/ ltb (of_int 100) (of_int 150) = true)
    by (right; vm_compute; reflexivity).
  assert (H3 : leb (of_int (-3)) (of_int 0) = true)
    by (vm_compute; reflexivity).
  split; [exact H1|]. split; [exact H2|]. split; [exact H3|].
  exact (C10_out_of_range_options_ignored 0 (of_int 150) (of_int (-3))
           (Some 2) (Some (of_int 50)) 4
           (a_data (analyse vault_cfg (vault [] []) vault_entries).1)
           H1 H2 H3).
Defined.

(** ** Further properties *)

(** The selection is a prefix of the ranked list, whatever the limits. *)
Theorem selection_is_ranked_prefix (lim cap : option Z) (data : list row) :
  select lim cap data `prefix_of` data.
Proof.
  destruct (select_loop_spec lim cap data [] 0)
    as (taken & rest & Hdata & Hsel & _).
  exists rest. unfold select. rewrite Hsel. exact Hdata.
Qed.

(** [outgoing_links] and [incoming_links_count] have the keys of
    [filtered_notes], which are distinct: no access by key in the link,
    counting and sizing loops raises [KeyError]. *)
Theorem analysis_keys (cfg : config) (w : world) (entries : list str) :
  let a := (analyse cfg w entries).1 in
  NoDup (dict_keys (a_filtered a))
  /\ dict_keys (a_outgoing a) = dict_keys (a_filtered a)
  /\ dict_keys (a_incoming a) = dict_keys (a_filtered a).
Proof.
  intros a. subst a. split; [apply filtered_NoDup|]. split.
  - rewrite analyse_outgoing. apply keys_link_pass.
  - rewrite analyse_incoming. apply keys_count_incoming.
Qed.

(** *** The text of a note *)


(** The tags of a text are its maximal runs of letters, digits, underscores
    and hyphens: a leading [#] is not needed, so every word counts as a
    tag. *)
Theorem tags_are_maximal_runs (content t : str) :
  t ∈ extract_tags_from_content content <-> is_tag_run content t.
Proof.
  unfold extract_tags_from_content. rewrite elem_of_list_to_set. split.
  - intros Ht. apply (tag_scan_sound t content [] O); [|exact Ht].
    intros a b Ha. discriminate.
  - intros (pre & post & -> & Hne & Hall & Hpre & Hpost).
    apply (tag_scan_complete t post Hne Hall Hpost pre [] O).
    + intros a b Ha. discriminate.
    + lia.
    + exact Hpre.
Qed.

(** An unterminated code fence removes nothing: a text without a fence is
    kept as it is, and so is a text whose only fence opens a block that is
    never closed. *)
Theorem unclosed_fence_kept (rest : str) :
  find_fence rest = None ->
  remove_code_blocks rest = rest
  /\ forall pre, Forall (fun c => c <> 96%N) pre ->
       remove_code_blocks (pre ++ fence ++ rest) = pre ++ fence ++ rest.
Proof.
  intros Hrest. split.
  - apply remove_code_blocks_no_match. intros k.
    apply find_fence_drop_None, Hrest.
  - intros pre Hpre. rewrite remove_code_blocks_prefix by exact Hpre.
    f_equal. apply remove_code_blocks_no_match. intros k.
    rewrite Nat.add_comm, <- drop_drop.
    change (drop 3 (fence ++ rest)) with rest.
    apply find_fence_drop_None, Hrest.
Qed.

Lemma unclosed_fence_kept_witness :
  find_fence (lit "#b") = None
  /\ remove_code_blocks (lit "#a " ++ fence ++ lit "#b")
     = lit "#a " ++ fence ++ lit "#b".
Proof.
  assert (H : find_fence (lit "#b") = None) by reflexivity.
  split; [exact H|].
  apply (proj2 (unclosed_fence_kept (lit "#b") H) (lit "#a ")).
  repeat constructor; discriminate.
Defined.

(** A fenced block is removed with its fences, up to the first closing
    fence, and the removal goes on in the text behind it; the text before
    the opening fence, when it holds no backquote, is kept. *)
Theorem code_block_removed (pre body post : str) :
  Forall (fun c => c <> 96%N) pre ->
  find_fence (body ++ fence) = Some (length body) ->
  remove_code_blocks (pre ++ fence ++ body ++ fence ++ post)
  = pre ++ remove_code_blocks post.
Proof.
  intros Hpre Hbody. rewrite remove_code_blocks_prefix by exact Hpre.
  f_equal. unfold remove_code_blocks.
  change (fence ++ body ++ fence ++ post)
    with (96%N :: [96%N; 96%N] ++ body ++ fence ++ post).
  cbn [remove_code_blocks_from].
  assert (Hm : match_code_block
                 (96%N :: [96%N; 96%N] ++ body ++ fence ++ post)
               = Some (length body + 6)%nat).
  { unfold match_code_block.
    change (startswith (96%N :: [96%N; 96%N] ++ body ++ fence ++ post) fence)
      with (startswith (body ++ fence ++ post) []).
    change (drop 3 (96%N :: [96%N; 96%N] ++ body ++ fence ++ post))
      with (body ++ fence ++ post).
    rewrite startswith_nil, (app_assoc body fence post).
    rewrite (find_fence_app _ _ _ Hbody). reflexivity. }
  rewrite Hm.
  replace (length body + 6 - 1)%nat
    with (length ([96%N; 96%N] ++ body ++ fence))
    by (rewrite !length_app; cbn; lia).
  replace ([96%N; 96%N] ++ body ++ fence ++ post)
    with (([96%N; 96%N] ++ body ++ fence) ++ post)
    by (rewrite <- !app_assoc; reflexivity).
  apply remove_code_blocks_from_app.
Qed.

Lemma code_block_removed_witness :
  find_fence (lit "#b `c` " ++ fence) = Some (length (lit "#b `c` "))
  /\ remove_code_blocks
       (lit "#a " ++ fence ++ lit "#b `c` " ++ fence ++ lit " #d")
     = lit "#a " ++ remove_code_blocks (lit " #d").
Proof.
  assert (H : find_fence (lit "#b `c` " ++ fence)
              = Some (length (lit "#b `c` "))) by reflexivity.
  split; [exact H|].
  apply (code_block_removed (lit "#a ") (lit "#b `c` ") (lit " #d"));
    [repeat constructor; discriminate|exact H].
Defined.

Lemma findall_links_occurrence_witness :
  lit " C " ∈ findall_links (lit "#x [[B]] and [[ C ]]")
  /\ exists pre post,
       lit "#x [[B]] and [[ C ]]"
       = pre ++ [91%N; 91%N] ++ lit " C " ++ [93%N; 93%N] ++ post.
Proof.
  assert (H : lit " C " ∈ findall_links (lit "#x [[B]] and [[ C ]]"))
    by (apply list_elem_of_In; vm_compute; auto).
  split; [exact H|].
  exact (proj2 (proj2 (findall_links_occurrence _ _ H))).
Defined.

(** A text without an opening bracket has no link, and the first link of a
    text is found behind any such text: the rest of the links are those
    of the text behind its closing brackets. *)
Theorem links_compose (pre : str) :
  Forall (fun c => c <> 91%N) pre ->
  findall_links pre = []
  /\ forall g post, g <> [] -> Forall (fun c => c <> 93%N) g ->
       findall_links (pre ++ [91%N; 91%N] ++ g ++ [93%N; 93%N] ++ post)
       = g :: findall_links post.
Proof.
  intros Hpre. split.
  - rewrite <- (app_nil_r pre). rewrite findall_links_prefix by exact Hpre.
    reflexivity.
  - intros g post Hne Hg. rewrite findall_links_prefix by exact Hpre.
    unfold findall_links.
    pose proof (match_link_here g post Hne Hg) as Hm.
    change ([91%N; 91%N] ++ g ++ [93%N; 93%N] ++ post)
      with (91%N :: [91%N] ++ g ++ [93%N; 93%N] ++ post) in *.
    cbn [findall_links_from]. rewrite Hm. f_equal.
    replace (length g + 3)%nat with (length ([91%N] ++ g ++ [93%N; 93%N]))
      by (rewrite !length_app; cbn; lia).
    replace ([91%N] ++ g ++ [93%N; 93%N] ++ post)
      with (([91%N] ++ g ++ [93%N; 93%N]) ++ post)
      by (rewrite <- !app_assoc; reflexivity).
    apply findall_links_from_app.
Qed.

Lemma links_compose_witness :
  Forall (fun c => c <> 91%N) (lit "see ")
  /\ findall_links
       (lit "see " ++ [91%N; 91%N] ++ lit "B|b" ++ [93%N; 93%N] ++ lit ".")
     = lit "B|b" :: findall_links (lit ".").
Proof.
  assert (H : Forall (fun c => c <> 91%N) (lit "see "))
    by (repeat constructor; discriminate).
  split; [exact H|].
  apply (proj2 (links_compose (lit "see ") H) (lit "B|b") (lit "."));
    [discriminate|repeat constructor; discriminate].
Defined.

(** *** Notes and files *)

(** The name of a note: a file [stem.md] is the note [stem], unless the
    stem is made of dots only (or empty), in which case the whole file
    name is the name of the note. *)
Theorem md_note_name (f : str) :
  endswith f dot_md = true ->
  exists stem,
    f = stem ++ dot_md
    /\ splitext_root f = if forallb is_dot stem then f else stem.
Proof.
  intros H. apply endswith_app in H.
  exists (take (length f - length dot_md) f). split; [exact H|].
  rewrite H at 1. rewrite splitext_root_md.
  destruct (forallb is_dot _); [symmetry; exact H|reflexivity].
Qed.

Lemma md_note_name_witness :
  endswith (lit ".hidden.md") dot_md = true
  /\ exists stem,
       lit ".hidden.md" = stem ++ dot_md
       /\ splitext_root (lit ".hidden.md")
          = if forallb is_dot stem then lit ".hidden.md" else stem.
Proof.
  split; [reflexivity|].
  apply (md_note_name (lit ".hidden.md")). reflexivity.
Defined.

(** The file of a note is the last entry of the directory listing that
    ends in [.md] and has the note's name: of two files with one name the
    later one is kept. *)
Theorem note_file_is_last_listed (cfg : config) (w : world)
    (entries : list str) (n : str) :
  dict_get n (a_notes (analyse cfg w entries).1)
  = last (List.filter (fun f => bool_decide (splitext_root f = n))
            (List.filter (fun f => endswith f dot_md) entries)).
Proof.
  rewrite analyse_notes. unfold notes_of.
  rewrite (dict_of_list_get (fun f => (splitext_root f, f))).
  cbn [fst snd]. destruct (last _); reflexivity.
Qed.

(** When the listing has no duplicate and no [.md] file whose stem is made
    of dots, every [.md] file is a note of its own: the notes are the
    [.md] files, in the order of the listing. *)
Theorem notes_one_per_file (cfg : config) (w : world) (entries : list str) :
  NoDup entries ->
  (forall f, f ∈ entries -> endswith f dot_md = true -> splitext_root f <> f) ->
  a_notes (analyse cfg w entries).1
  = List.map (fun f => (splitext_root f, f))
      (List.filter (fun f => endswith f dot_md) entries).
Proof.
  intros Hnd Hdots. rewrite analyse_notes. unfold notes_of.
  apply dict_of_list_id.
  assert (Hmd : forall f,
            f ∈ List.filter (fun f => endswith f dot_md) entries ->
            f = splitext_root f ++ dot_md).
  { intros f Hf. apply list_elem_of_In, filter_In in Hf as [Hin He].
    apply list_elem_of_In in Hin.
    destruct (md_note_name f He) as (stem & Hf & Hs).
    destruct (forallb is_dot stem).
    - exfalso. apply (Hdots f Hin He). exact Hs.
    - rewrite Hs. exact Hf. }
  assert (Hfl : NoDup (List.filter (fun f => endswith f dot_md) entries)).
  { apply NoDup_ListNoDup, List.NoDup_filter, NoDup_ListNoDup, Hnd. }
  revert Hmd Hfl. generalize (List.filter (fun f => endswith f dot_md) entries).
  intros l Hmd Hl. induction Hl as [|f l Hf Hl IH]; [constructor|].
  cbn [List.map fmap list_fmap fst]. constructor.
  - intros Hin. apply Hf.
    change (splitext_root f
            ∈ (List.map (fun f => (splitext_root f, f)) l).*1) in Hin.
    apply list_elem_of_fmap in Hin as ([n' f'] & Hn & Hin). cbn in Hn.
    apply list_elem_of_In, in_map_iff in Hin as (f0 & [= <- <-] & Hin).
    apply list_elem_of_In in Hin.
    rewrite (Hmd f) by apply list_elem_of_here.
    rewrite (Hmd f0) in Hin by (apply list_elem_of_further; exact Hin).
    rewrite Hn. exact Hin.
  - apply IH. intros f0 Hf0. apply Hmd, list_elem_of_further, Hf0.
Qed.

Lemma notes_one_per_file_witness :
  NoDup vault_entries
  /\ a_notes (analyse vault_cfg (vault [] []) vault_entries).1
     = List.map (fun f => (splitext_root f, f))
         (List.filter (fun f => endswith f dot_md) vault_entries).
Proof.
  assert (Hnd : NoDup vault_entries).
  { apply NoDup_ListNoDup.
    vm_compute. repeat constructor; cbn; intuition discriminate. }
  split; [exact Hnd|].
  apply (notes_one_per_file vault_cfg (vault [] []) vault_entries Hnd).
  intros f Hf He Heq. apply list_elem_of_In in Hf.
  vm_compute in Hf. repeat destruct Hf as [<-|Hf]; try contradiction;
    vm_compute in He, Heq; discriminate.
Defined.

(** Adding tags to [--select-tags] or to [--ignore-tags] never brings a
    note in: the notes kept under the larger filters are among those kept
    under the smaller ones, in the same order. *)
Theorem more_tags_fewer_notes (cfg cfg' : config) (w : world)
    (entries : list str) :
  input_dir cfg = input_dir cfg' ->
  select_tags cfg ⊆ select_tags cfg' ->
  ignore_tags cfg ⊆ ignore_tags cfg' ->
  sublist (a_filtered (analyse cfg' w entries).1)
          (a_filtered (analyse cfg w entries).1).
Proof.
  intros Hd Hs Hi. rewrite !filtered_is_filter.
  rewrite !analyse_note_tags, !analyse_notes.
  rewrite (tag_pass_input_dir cfg cfg' w _ Hd).
  apply filter_sublist_impl. intros item H.
  apply andb_true_iff in H as [Hm Hp]. rewrite Hm. cbn [andb].
  apply (note_passes_filter_mono cfg cfg' _ _ Hs Hi Hp).
Qed.

Lemma more_tags_fewer_notes_witness :
  sublist (a_filtered (analyse vault_cfg (vault [] []) vault_entries).1)
          (a_filtered (analyse half_cfg (vault [] []) vault_entries).1).
Proof.
  apply (more_tags_fewer_notes half_cfg vault_cfg);
    [reflexivity|vm_compute; set_solver|vm_compute; set_solver].
Defined.

(** *** Degrees and records *)

(** In every run the out-degrees of the filtered notes add up to their
    in-degrees: every edge leaves a filtered note and enters one. *)
Theorem degree_sums_agree (cfg : config) (w : world) (entries : list str) :
  let a := (analyse cfg w entries).1 in
  sum_list_with (fun n => size (dict_item ∅ n (a_outgoing a)))
    (dict_keys (a_filtered a))
  = sum_list_with (fun n => dict_item O n (a_incoming a))
      (dict_keys (a_filtered a)).
Proof.
  intros a. subst a.
  pose proof (filtered_NoDup cfg w entries) as Hnd.
  assert (Hkeys : dict_keys (a_outgoing (analyse cfg w entries).1)
                  = dict_keys (a_filtered (analyse cfg w entries).1))
    by (rewrite analyse_outgoing; apply keys_link_pass).
  rewrite (sum_list_with_ext
             (fun n => dict_item O n (a_incoming (analyse cfg w entries).1))
             (fun n => length (sources_of n
                                 (a_outgoing (analyse cfg w entries).1)))).
  2:{ intros n Hn. unfold dict_item.
      rewrite analyse_incoming, count_incoming_get by assumption.
      reflexivity. }
  rewrite sources_double_count; [|exact Hnd|].
  - rewrite <- Hkeys.
    apply (sum_dict_item_keys ∅ size). rewrite Hkeys. exact Hnd.
  - intros [m s] Hin t Ht. cbn [snd] in Ht.
    assert (Hm : dict_get m (a_outgoing (analyse cfg w entries).1) = Some s)
      by (apply dict_get_NoDup; [rewrite Hkeys; exact Hnd|exact Hin]).
    assert (Ht' : t ∈ dict_item ∅ m (a_outgoing (analyse cfg w entries).1))
      by (unfold dict_item; rewrite Hm; exact Ht).
    apply outgoing_subset in Ht'. apply elem_of_difference in Ht' as [Ht' _].
    exact Ht'.
Qed.

(** A filtered note links to at most all the other filtered notes and is
    linked from at most all of them: out-degree and in-degree are at most
    the number of filtered notes minus one. *)
Theorem degrees_bounded (cfg : config) (w : world) (entries : list str)
    (n : str) :
  let a := (analyse cfg w entries).1 in
  n ∈ dict_keys (a_filtered a) ->
  (size (dict_item ∅ n (a_outgoing a)) <= length (a_filtered a) - 1)%nat
  /\ (dict_item O n (a_incoming a) <= length (a_filtered a) - 1)%nat.
Proof.
  intros a Hn. subst a. split.
  - rewrite <- (keys_minus_size cfg w entries n Hn).
    apply subseteq_size, outgoing_subset.
  - unfold dict_item.
    rewrite analyse_incoming, count_incoming_get
      by (apply filtered_NoDup || exact Hn).
    cbn [default].
    rewrite (sources_of_size _ (dict_keys (a_filtered (analyse cfg w entries).1))).
    + rewrite <- (keys_minus_size cfg w entries n Hn).
      apply subseteq_size. intros m Hm.
      apply elem_of_filter in Hm as [Hm Hk].
      apply elem_of_difference. split; [exact Hk|].
      intros ->%elem_of_singleton.
      apply outgoing_subset, elem_of_difference in Hm as [_ Hm].
      apply Hm, elem_of_singleton. reflexivity.
    + rewrite analyse_outgoing, keys_link_pass. apply filtered_NoDup.
    + rewrite analyse_outgoing. apply keys_link_pass.
Qed.

Lemma degrees_bounded_witness :
  lit "A" ∈ dict_keys
    (a_filtered (analyse vault_cfg (vault [] []) vault_entries).1)
  /\ (size (dict_item ∅ (lit "A")
              (a_outgoing (analyse vault_cfg (vault [] []) vault_entries).1))
      <= length (a_filtered
                   (analyse vault_cfg (vault [] []) vault_entries).1) - 1)%nat.
Proof.
  assert (H : lit "A" ∈ dict_keys
                (a_filtered (analyse vault_cfg (vault [] []) vault_entries).1))
    by (apply list_elem_of_In; vm_compute; auto).
  split; [exact H|].
  exact (proj1 (degrees_bounded vault_cfg (vault [] []) vault_entries
                  (lit "A") H)).
Defined.

(** The records of a run, hence the rows of the CSV file and the selected
    notes, name distinct files; each names a [.md] entry of the listing
    that was a regular file when sized, and its total is the sum of its two
    degrees. *)
Theorem records_are_distinct_notes (cfg : config) (w : world)
    (entries : list str) :
  let a := (analyse cfg w entries).1 in
  NoDup (r_filename <$> a_data a)
  /\ Forall (fun r =>
               r_filename r ∈ entries
               /\ endswith (r_filename r) dot_md = true
               /\ os_isfile w (path_join (input_dir cfg) (r_filename r)) = true
               /\ r_total r = (r_out r + r_in r)%nat)
            (a_data a).
Proof.
  intros a. subst a. pose proof (analyse_data_perm cfg w entries) as Hperm.
  cbv zeta in Hperm. split.
  - rewrite Hperm. eapply sublist_NoDup; [|apply record_filenames_sublist].
    eapply sublist_NoDup;
      [|apply fmap_sublist, (filtered_sublist_notes cfg w entries)].
    rewrite analyse_notes. apply notes_values_NoDup.
  - rewrite Hperm. apply Forall_forall. intros r Hr.
    apply list_elem_of_omap in Hr as ([n f] & Hin & Hr).
    apply record_of_filename in Hr as (Hf & Ht & Hfile). cbn [snd] in *.
    rewrite Hf.
    pose proof (elem_of_sublist _ _ _ Hin
                  (filtered_sublist_notes cfg w entries)) as Hnote.
    clear Hin. rename Hnote into Hin.
    rewrite analyse_notes in Hin. apply notes_elem in Hin as [_ Hin].
    apply list_elem_of_In, filter_In in Hin as [Hin He].
    apply list_elem_of_In in Hin. auto.
Qed.

(** Records of equal total degree keep, in the ranking, the order in which
    the sizing loop produced them: the sort is stable. *)
Theorem ranking_is_stable (l : list row) (t : nat) :
  List.filter (fun r => (r_total r =? t)%nat) (sort_desc l)
  = List.filter (fun r => (r_total r =? t)%nat) l.
Proof.
  induction l as [|x l IH]; [reflexivity|].
  cbn [sort_desc foldr]. fold (sort_desc l).
  rewrite insert_desc_filter. cbn [List.filter]. rewrite IH. reflexivity.
Qed.

(** A completed export respects the limits of the command line: with a
    positive top-N at most N notes are selected, with a percentage at most
    the count it derives, and with a size budget the selected notes weigh at
    most the ceiling computed from it. *)
Theorem selection_within_limits (cfg : config) (w : world) (data sel : list row) :
  (export cfg w data).1 = inr sel ->
  (forall n, copy_top cfg = Some n -> 0 < n -> Z.of_nat (length sel) <= n)
  /\ (forall lim,
        max_notes_limit_of (copy_top cfg) (copy_top_percent cfg) (length data)
        = inr (Some lim) -> Z.of_nat (length sel) <= lim)
  /\ (forall cap,
        max_size_bytes_of (copy_until_size cfg) = inr (Some cap) ->
        total_size sel <= cap).
Proof.
  rewrite export_fst.
  destruct (max_notes_limit_of _ _ _) as [|lim] eqn:Hlim; [discriminate|].
  destruct (max_size_bytes_of _) as [|cap] eqn:Hcap; [discriminate|].
  intros [= <-].
  assert (Hcount : forall l, lim = Some l ->
            Z.of_nat (length (select lim cap data)) <= l).
  { intros l ->. apply select_length_le.
    eapply max_notes_limit_positive, Hlim. }
  split; [|split].
  - intros n Hn Hpos. unfold max_notes_limit_of in Hlim.
    rewrite Hn in Hlim.
    destruct (Z.ltb_spec 0 n) as [_|]; [|lia].
    destruct (copy_top_percent cfg) as [p|].
    + destruct (_ && _).
      * destruct (floor _) as [|c]; [discriminate|].
        destruct (0 <? c); injection Hlim as <-.
        -- specialize (Hcount _ eq_refl). lia.
        -- apply Hcount. reflexivity.
      * injection Hlim as <-. apply Hcount. reflexivity.
    + injection Hlim as <-. apply Hcount. reflexivity.
  - intros l [= ->]. apply Hcount. reflexivity.
  - intros m [= ->]. apply select_size_le.
    eapply max_size_bytes_nonneg, Hcap.
Qed.

Lemma selection_within_limits_witness :
  (export (with_dry_run true half_cfg) (vault [] []) two_rows).1
  = inr [{| r_filename := lit "A.md"; r_out := 1; r_in := 1; r_total := 2;
            r_size := 10 |}]
  /\ (forall lim,
        max_notes_limit_of (copy_top (with_dry_run true half_cfg))
          (copy_top_percent (with_dry_run true half_cfg)) (length two_rows)
        = inr (Some lim) -> Z.of_nat 1 <= lim).
Proof.
  assert (H : (export (with_dry_run true half_cfg) (vault [] []) two_rows).1
              = inr [{| r_filename := lit "A.md"; r_out := 1; r_in := 1;
                        r_total := 2; r_size := 10 |}])
    by (vm_compute; reflexivity).
  split; [exact H|].
  exact (proj1 (proj2 (selection_within_limits _ _ _ _ H))).
Defined.

(** *** The events of a run *)


(** When a run completes, the copies it attempted are those of the
    selected notes, one for each in the order of the selection, from the
    input directory to the destination under the same file name: a copy
    that fails, or a destination directory that cannot be created, stops
    none of the others.  Without a destination, or in a dry run, no copy is
    attempted. *)
Theorem copies_follow_selection (cfg : config) (w : world) (sel : list row) :
  (main cfg w).1 = inr sel ->
  copies (main cfg w).2
  = match copy_dest cfg with
    | Some dest =>
        if dry_run cfg then []
        else List.map (fun r => (path_join (input_dir cfg) (r_filename r),
                                 path_join dest (r_filename r))) sel
    | None => []
    end.
Proof.
  intros Hs. rewrite main_fst in Hs.
  destruct (os_listdir w (input_dir cfg)) as [entries|] eqn:Hl;
    [|discriminate].
  destruct (main_snd_listed cfg w entries Hl) as (t & -> & Ht).
  rewrite copies_app, (copies_mutates t Ht). cbn [app].
  apply export_copies. exact Hs.
Qed.

Lemma copies_follow_selection_witness :
  (main copy_cfg (vault [] [])).1
  = inr [{| r_filename := lit "A.md"; r_out := 2; r_in := 2; r_total := 4;
            r_size := 47 |};
         {| r_filename := lit "B.md"; r_out := 1; r_in := 1; r_total := 2;
            r_size := 16 |}]
  /\ copies (main copy_cfg (vault [] [])).2
     = [(lit "in/A.md", lit "out/A.md"); (lit "in/B.md", lit "out/B.md")].
Proof.
  assert (H : (main copy_cfg (vault [] [])).1
              = inr [{| r_filename := lit "A.md"; r_out := 2; r_in := 2;
                        r_total := 4; r_size := 47 |};
                     {| r_filename := lit "B.md"; r_out := 1; r_in := 1;
                        r_total := 2; r_size := 16 |}])
    by (vm_compute; reflexivity).
  split; [exact H|].
  rewrite (copies_follow_selection copy_cfg (vault [] []) _ H).
  vm_compute. reflexivity.
Defined.


